(** * PDF-chat-RAG: ingestion worker, embedding adapter and query endpoints

    A shallow embedding of [server/worker.js] (the BullMQ ingestion worker),
    [server/embedding-model.js] (the embedding adapter) and the two chat
    endpoints of the Express server, with the properties the specification
    states about them.

    The JavaScript code is asynchronous and talks to outside services (the
    file system and the PDF parser, the text splitter, the embedding
    provider, the vector index, the generation provider).  A handler is embedded as a program of a
    small free monad: every [await] of an outside call is a node of the
    program, an exception is a leaf, [try]/[catch] is a program transformer,
    and what the handler writes to the HTTP response is recorded as response
    actions.  Programs are run against an environment that answers the
    outside calls; the run records every call with its answer. *)

From Stdlib Require Import ZArith NArith List Lia Ascii DecimalString QArith.
From Stdlib Require Import Floats.SpecFloat.
From stdpp Require Import base option list strings gmap.

Set Warnings "-register-all".

(* ===================================================================== *)
(** ** JavaScript strings *)
(* ===================================================================== *)

(** A JavaScript string is a sequence of UTF-16 code units; [length],
    [substring] and [trim] all work on code units. *)
Abbreviation jstring := (list N).

(** A source literal made of ASCII characters. *)
Definition lit (s : string) : jstring :=
  (λ a, N_of_ascii a) <$> String.list_ascii_of_string s.

Arguments lit : simpl never.

(** [WhiteSpace] and [LineTerminator] code units, the ones
    [String.prototype.trim] removes. *)
Definition is_ws (c : N) : bool :=
  ((9 <=? c) && (c <=? 13) || (c =? 32) || (c =? 160) || (c =? 5760)
   || (8192 <=? c) && (c <=? 8202) || (c =? 8232) || (c =? 8233)
   || (c =? 8239) || (c =? 8287) || (c =? 12288) || (c =? 65279))%N.

Fixpoint trim_start (s : jstring) : jstring :=
  match s with
  | c :: s' => if is_ws c then trim_start s' else s
  | [] => []
  end.

Definition trim (s : jstring) : jstring :=
  reverse (trim_start (reverse (trim_start s))).

(** [s.substring(0, n)] *)
Definition substring0 (n : nat) (s : jstring) : jstring := take n s.

(** [parts.join(sep)] on an array of strings. *)
Fixpoint join (sep : jstring) (parts : list jstring) : jstring :=
  match parts with
  | [] => []
  | [p] => p
  | p :: rest => p ++ sep ++ join sep rest
  end.

(** Decimal rendering of an integral Number, as template literals and
    [String] produce it. *)
Definition nat_to_jstring (n : nat) : jstring :=
  lit (NilZero.string_of_uint (Nat.to_uint n)).

Definition Z_to_jstring (z : Z) : jstring :=
  lit (NilZero.string_of_int (Z.to_int z)).

(* ===================================================================== *)
(** ** JavaScript values and errors *)
(* ===================================================================== *)

(** The values the embedding adapter can be handed: data, as
    [JSON.parse] and literals without functions build it, and
    [undefined].  [VNum] carries the integral Numbers of the safe range
    ([Number.MAX_SAFE_INTEGER] is [2^53 - 1]), which print in plain
    decimal; the other Numbers are not carried.  [VObj] is a plain object:
    its own data properties, with [Object.prototype] as prototype. *)
Inductive jsval : Type :=
  | VUndefined
  | VNull
  | VBool (b : bool)
  | VNum (n : Z) (safe : Is_true (Z.abs n <=? 9007199254740991)%Z)
  | VStr (s : jstring)
  | VArr (items : list jsval)
  | VObj (fields : list (string * jsval)).

(** [Array.isArray(v)] *)
Definition isArray (v : jsval) : bool :=
  match v with VArr _ => true | _ => false end.

(** Whether [String(v)] throws.  The coercion of an object goes through
    its [toString] and then its [valueOf].  An own [toString] property of
    a data object is not a function and is passed over, the inherited
    [valueOf] returns the object itself, and the coercion ends in a
    [TypeError]; without an own [toString] the inherited one answers.  An
    array is printed by [join], which coerces every element other than
    [undefined] and [null]. *)
Fixpoint String_throws (v : jsval) : bool :=
  match v with
  | VObj fields => existsb (λ kv, String.eqb kv.1 "toString") fields
  | VArr items =>
      (fix any (l : list jsval) : bool :=
         match l with
         | [] => false
         | x :: l' => String_throws x || any l'
         end) items
  | _ => false
  end.

(** [String(v)]: the string the ToString coercion returns, when it does
    not throw.  An array prints its elements separated by commas, with
    [undefined] and [null] printed empty. *)
Fixpoint String_ (v : jsval) : jstring :=
  match v with
  | VUndefined => lit "undefined"
  | VNull => lit "null"
  | VBool true => lit "true"
  | VBool false => lit "false"
  | VNum n _ => Z_to_jstring n
  | VStr s => s
  | VArr items =>
      join (lit ",")
        ((fix each (l : list jsval) : list jstring :=
            match l with
            | [] => []
            | VUndefined :: l' => [] :: each l'
            | VNull :: l' => [] :: each l'
            | x :: l' => String_ x :: each l'
            end) items)
  | VObj _ => lit "[object Object]"
  end.

(** A thrown JavaScript error: its constructor and its [message]. *)
Inductive error : Type :=
  | Error (message : jstring)
  | TypeError (message : jstring).

Definition message (e : error) : jstring :=
  match e with Error m | TypeError m => m end.

(* ===================================================================== *)
(** ** Data exchanged with the outside services *)
(* ===================================================================== *)

(** A JavaScript Number that is not used as an index: a binary64 value,
    [mantissa * 2 ^ exponent] when finite.  The code only passes these
    along (vector components, scores, sampling parameters). *)
Abbreviation float := spec_float.

Definition float_zero : float := S754_zero false.
Definition float_one : float := S754_finite false 4503599627370496 (-52).
(** The binary64 values the literals [0.3] and [0.9] denote. *)
Definition float_0_3 : float := S754_finite false 5404319552844595 (-54).
Definition float_0_9 : float := S754_finite false 8106479329266893 (-53).

Abbreviation vector := (list float).

(** One entry of [response.embeddings] of the embedding provider. *)
Record content_embedding := { values : vector }.

Record embed_response := { embeddings : list content_embedding }.

(** Result of [pdf(buffer)]. *)
Record pdf_data := { pdf_text : jstring }.

(** Payload stored with a point.  [text] is [chunks[i]], which is
    [undefined] ([None]) when the index is out of range. *)
Record payload := {
  text : option jstring;
  chunk_index : nat;
  source : jstring
}.

Record point := {
  id : nat;
  vector_of : vector;
  point_payload : payload
}.

(** One hit of [qdrant.search]. *)
Record search_result := {
  result_id : nat;
  score : float;
  result_payload : payload
}.

Record collection_config := { size : nat; distance : jstring }.

Record search_params := {
  query_vector : option vector;   (* [undefined] when [queryEmbedding] is empty *)
  limit : nat;
  with_payload : bool
}.

Record chat_message := { role : jstring; content : jstring }.

Record chat_request := {
  messages : list chat_message;
  model : jstring;
  temperature : float;
  max_tokens : nat;
  top_p : option float;         (* given by the batch endpoint only *)
  stream : bool
}.

(** Non-streaming answer: [choices[0]?.message?.content]. *)
Record chat_completion := { first_content : option jstring }.

(** Streaming answer: the chunks the async iterator yields, each with its
    [choices[0]?.delta?.content], and the error the iterator ends with, if
    any. *)
Record chunk_stream := {
  deltas : list (option jstring);
  stream_failure : option error
}.

Definition chat_result (streaming : bool) : Type :=
  if streaming then chunk_stream else chat_completion.

(** Parsed [job.data] of the [fileupload] queue. *)
Record job_data := {
  filename : jstring;
  destination : jstring;
  path : jstring
}.

(* ===================================================================== *)
(** ** Outside calls *)
(* ===================================================================== *)

Inductive event : Type → Type :=
  | ReadFile (p : jstring) : event (list N)
  | PdfParse (buffer : list N) : event pdf_data
  | SplitText (chunkSize chunkOverlap : nat) (t : jstring) : event (list jstring)
  | EmbedContent (model : jstring) (contents : list jstring) : event embed_response
  | GetCollection (name : jstring) : event unit
  | CreateCollection (name : jstring) (cfg : collection_config) : event unit
  | Upsert (name : jstring) (wait : bool) (points : list point) : event unit
  | Search (name : jstring) (params : search_params) : event (list search_result)
  | ChatCompletionsCreate (req : chat_request) : event (chat_result (stream req)).

(** JSON documents written to an HTTP response. *)
Inductive json : Type :=
  | JBool (b : bool)
  | JNum (n : Z)
  | JFloat (f : float)
  | JStr (s : jstring)
  | JArr (items : list json)
  | JObj (fields : list (string * json)).

(** Property lookup in a JSON object. *)
Fixpoint assoc (k : string) (fields : list (string * json)) : option json :=
  match fields with
  | [] => None
  | (k', v) :: rest => if String.eqb k k' then Some v else assoc k rest
  end.

Definition field (k : string) (j : json) : option json :=
  match j with JObj fields => assoc k fields | _ => None end.

(** What a handler does to its response object.  [Write] is one
    server-sent event, [data: <json>] followed by a blank line. *)
Inductive res_action : Type :=
  | SetHeader (name value : string)
  | Status (code : nat)
  | Json (body : json)
  | Write (data : json)
  | End.

(* ===================================================================== *)
(** ** Programs *)
(* ===================================================================== *)

Inductive prog (A : Type) : Type :=
  | Ret (a : A)
  | Throw (e : error)
  | Await {R : Type} (ev : event R) (k : error + R → prog A)
  | Res (a : res_action) (k : prog A).

Arguments Ret {A} a.
Arguments Throw {A} e.
Arguments Await {A R} ev k.
Arguments Res {A} a k.

Fixpoint bind {A B} (p : prog A) (f : A → prog B) : prog B :=
  match p with
  | Ret a => f a
  | Throw e => Throw e
  | Await ev k => Await ev (λ r, bind (k r) f)
  | Res a k => Res a (bind k f)
  end.

(** [try { p } catch (e) { h e }] *)
Fixpoint try_catch {A} (p : prog A) (h : error → prog A) : prog A :=
  match p with
  | Ret a => Ret a
  | Throw e => h e
  | Await ev k => Await ev (λ r, try_catch (k r) h)
  | Res a k => Res a (try_catch k h)
  end.

(** [await call]: the awaited promise resolves or rejects. *)
Definition await {R} (ev : event R) : prog R :=
  Await ev (λ r, match r with inl e => Throw e | inr v => Ret v end).

Definition res (a : res_action) : prog unit := Res a (Ret tt).

#[global] Instance prog_ret : MRet prog := @Ret.
#[global] Instance prog_bind : MBind prog := λ A B f p, bind p f.

(* ===================================================================== *)
(** ** Running a program *)
(* ===================================================================== *)

(** An environment answers every outside call, from a state of its own. *)
Record env := {
  world : Type;
  handle : ∀ R, event R → world → (error + R) * world
}.

Arguments handle e {R} ev w.

(** A call together with the answer it got. *)
Inductive call : Type :=
  | Call {R : Type} (ev : event R) (answer : error + R).

Inductive outcome (A : Type) : Type :=
  | Returned (a : A)
  | Thrown (e : error).

Arguments Returned {A} a.
Arguments Thrown {A} e.

Record run (E : env) (A : Type) := {
  result : outcome A;
  final : world E;
  calls : list call;
  actions : list res_action
}.

Arguments result {E A} r.
Arguments final {E A} r.
Arguments calls {E A} r.
Arguments actions {E A} r.

Fixpoint exec {E : env} {A} (p : prog A) (w : world E) : run E A :=
  match p with
  | Ret a => {| result := Returned a; final := w; calls := []; actions := [] |}
  | Throw e => {| result := Thrown e; final := w; calls := []; actions := [] |}
  | Await ev k =>
      let '(r, w') := handle E ev w in
      let rest := exec (k r) w' in
      {| result := result rest; final := final rest;
         calls := Call ev r :: calls rest; actions := actions rest |}
  | Res a k =>
      let rest := exec k w in
      {| result := result rest; final := final rest;
         calls := calls rest; actions := a :: actions rest |}
  end.

(* ===================================================================== *)
(** ** The embedding adapter, [embeddingModel({ docs })] *)
(* ===================================================================== *)

(** What [String(d)] throws on an object it cannot convert. *)
Definition cannot_convert : error :=
  TypeError (lit "Cannot convert object to primitive value").

Definition embeddingModel (docs : jsval) : prog (list vector) :=
  match docs with
  | VArr items =>
      (* Ensure everything is a string: [docs.map((d) => String(d))], which
         is outside the [try] and throws when a coercion does *)
      if existsb String_throws items then Throw cannot_convert
      else
        let cleanedDocs := String_ <$> items in
        try_catch
          (response ← await (EmbedContent (lit "gemini-embedding-001") cleanedDocs);
           let embeddings := values <$> embeddings response in
           (* the log line reads [embeddings[0].length] *)
           match embeddings with
           | [] => Throw (TypeError (lit "Cannot read properties of undefined (reading 'length')"))
           | _ :: _ => Ret embeddings
           end)
          (λ error, Throw error)
  | _ => Throw (Error (lit "docs must be an array of strings"))
  end.


(* ===================================================================== *)
(** ** The ingestion worker, [server/worker.js] *)
(* ===================================================================== *)

Record job_result := { success : bool; chunks : nat }.

Definition collectionName : jstring := lit "pdf-with-chat".

(** [documentEmbeddings.map((vec, i) => ({ id: i + 1, ... }))] *)
Definition points (data : job_data) (chunks : list jstring)
    (documentEmbeddings : list vector) : list point :=
  imap (λ i vec,
          {| id := i + 1;
             vector_of := vec;
             point_payload := {| text := chunks !! i;
                                 chunk_index := i;
                                 source := path data |} |})
       documentEmbeddings.

(** The "Ensure collection exists" block: [getCollection] in a [try], the
    creation in its [catch]. *)
Definition ensure_collection (documentEmbeddings : list vector) : prog unit :=
  try_catch
    (await (GetCollection collectionName))
    (λ _,
       match documentEmbeddings with
       | [] => Throw (TypeError (lit "Cannot read properties of undefined (reading 'length')"))
       | vec0 :: _ =>
           await (CreateCollection collectionName
                    {| size := length vec0; distance := lit "Cosine" |})
       end).

(** The processor function handed to [new Worker("fileupload", ...)];
    [data] is [JSON.parse(job.data)], the message the upload endpoint
    enqueued. *)
Definition worker (data : job_data) : prog job_result :=
  try_catch
    (buffer ← await (ReadFile (path data));
     pdfData ← await (PdfParse buffer);
     chunks ← await (SplitText 1000 100 (pdf_text pdfData));
     documentEmbeddings ← embeddingModel (VArr (VStr <$> chunks));
     _ ← ensure_collection documentEmbeddings;
     _ ← await (Upsert collectionName true (points data chunks documentEmbeddings));
     mret {| success := true; chunks := length chunks |})
    (λ error, Throw error).

(* ===================================================================== *)
(** ** The chat endpoints of the server *)
(* ===================================================================== *)

Definition dquote : jstring := [34%N].
Definition newline : jstring := [10%N].

(** [`[Chunk ${idx + 1}] ${result.payload.text}`]; an [undefined] text is
    printed as the word. *)
Definition chunk_label (idx : nat) (result : search_result) : jstring :=
  lit "[Chunk " ++ nat_to_jstring (idx + 1) ++ lit "] "
  ++ default (lit "undefined") (text (result_payload result)).

(** [searchResults.map(...).join("\n\n")] *)
Definition context_of (searchResults : list search_result) : jstring :=
  join (newline ++ newline) (imap chunk_label searchResults).

Definition rule2 : jstring :=
  lit "2. If the answer is not in the context, say " ++ dquote
  ++ lit "I cannot find this information in the provided document" ++ dquote.

(** The text of the batch endpoint's template before [${context}]. *)
Definition chat_preamble : jstring :=
  join newline
    [ lit "You are a helpful AI assistant that answers questions based STRICTLY on the provided PDF document context. ";
      [];
      lit "CRITICAL RULES:";
      lit "1. ONLY use information from the context below to answer questions";
      rule2;
      lit "3. DO NOT use your general knowledge or make up information";
      lit "4. Quote relevant parts from the context when answering";
      lit "5. If the context is insufficient, ask for clarification or state what information is missing";
      lit "6. Be concise and accurate";
      [];
      lit "CONTEXT FROM PDF DOCUMENT:";
      [] ].

(** ... and after it. *)
Definition chat_closing : jstring :=
  join newline
    [ [];
      [];
      lit "Remember: Your answer must be based ONLY on the context above. If you cannot answer from the context, clearly state that." ].

(** The streaming endpoint's template before [${context}]; nothing
    follows the context there. *)
Definition stream_preamble : jstring :=
  join newline
    [ lit "You are a helpful AI assistant that answers questions based STRICTLY on the provided PDF document context. ";
      [];
      lit "CRITICAL RULES:";
      lit "1. ONLY use information from the context below to answer questions";
      rule2;
      lit "3. DO NOT use your general knowledge or make up information";
      lit "4. Quote relevant parts from the context when answering";
      lit "5. Be concise and accurate";
      [];
      lit "CONTEXT FROM PDF DOCUMENT:";
      [] ].

Definition chat_messages (systemPrompt query : jstring) : list chat_message :=
  [ {| role := lit "system"; content := systemPrompt |};
    {| role := lit "user"; content := query |} ].

Definition chat_request_of (systemPrompt query : jstring) : chat_request :=
  {| messages := chat_messages systemPrompt query;
     model := lit "llama-3.3-70b-versatile";
     temperature := float_0_3;
     max_tokens := 2048;
     top_p := Some float_0_9;
     stream := false |}.

Definition stream_request_of (systemPrompt query : jstring) : chat_request :=
  {| messages := chat_messages systemPrompt query;
     model := lit "llama-3.3-70b-versatile";
     temperature := float_0_3;
     max_tokens := 2048;
     top_p := None;
     stream := true |}.

Definition search_request (v : option vector) : search_params :=
  {| query_vector := v; limit := 5; with_payload := true |}.

Definition no_context_answer : jstring :=
  lit "I couldn't find any relevant information in the uploaded PDF to answer your question. Please make sure you've uploaded a PDF document first.".

Arguments chat_preamble : simpl never.
Arguments chat_closing : simpl never.
Arguments stream_preamble : simpl never.
Arguments context_of : simpl never.
Arguments chat_request_of : simpl never.
Arguments stream_request_of : simpl never.
Arguments search_request : simpl never.
Arguments no_context_answer : simpl never.
Arguments collectionName : simpl never.

(** [res.status(400).json({ error: 'Query is required' })] *)
Definition reject_query : prog unit :=
  _ ← res (Status 400);
  res (Json (JObj [("error", JStr (lit "Query is required"))])).

(** One entry of [sources]; [result.payload.text.substring] throws when the
    payload has no text. *)
Definition source_entry (idx : nat) (result : search_result) : prog json :=
  match text (result_payload result) with
  | None => Throw (TypeError (lit "Cannot read properties of undefined (reading 'substring')"))
  | Some t =>
      mret (JObj [ ("chunk_index", JNum (Z.of_nat (idx + 1)));
                   ("text", JStr (substring0 200 t ++ lit "..."));
                   ("score", JFloat (score result));
                   ("source", JStr (source (result_payload result))) ])
  end.

Fixpoint source_entries (idx : nat) (searchResults : list search_result) : prog (list json) :=
  match searchResults with
  | [] => mret []
  | result :: rest =>
      entry ← source_entry idx result;
      entries ← source_entries (S idx) rest;
      mret (entry :: entries)
  end.

Arguments source_entries : simpl never.

(** [x || fallback] on a possibly missing string: the empty string is
    falsy too. *)
Definition or_else (x : option jstring) (fallback : jstring) : jstring :=
  match x with
  | Some (c :: s) => c :: s
  | _ => fallback
  end.

(** [app.post('/chat', ...)]; [query] is [req.body.query], [None] when the
    body has no such property. *)
Definition chat (query : option jstring) : prog unit :=
  try_catch
    (match query with
     | None | Some [] => reject_query                       (* !query *)
     | Some query =>
         match trim query with
         | [] => reject_query                               (* query.trim() === '' *)
         | _ :: _ =>
             queryEmbedding ← embeddingModel (VArr [VStr query]);
             match queryEmbedding with
             | [] => Throw (Error (lit "Failed to generate query embedding"))
             | vec0 :: _ =>
                 searchResults ← await (Search collectionName (search_request (Some vec0)));
                 match searchResults with
                 | [] =>
                     res (Json (JObj [ ("answer", JStr no_context_answer);
                                       ("sources", JArr []) ]))
                 | _ :: _ =>
                     let context := context_of searchResults in
                     let systemPrompt := chat_preamble ++ context ++ chat_closing in
                     chatCompletion ← await (ChatCompletionsCreate (chat_request_of systemPrompt query));
                     let answer := or_else (first_content chatCompletion)
                                           (lit "No response generated") in
                     sources ← source_entries 0 searchResults;
                     res (Json (JObj [ ("answer", JStr answer);
                                       ("sources", JArr sources) ]))
                 end
             end
         end
     end)
    (λ error,
       _ ← res (Status 500);
       res (Json (JObj [ ("error", JStr (lit "Failed to process chat request"));
                         ("details", JStr (message error)) ]))).

(** The [for await] loop of the streaming endpoint: every chunk with a
    non-empty content is written as one event. *)
Fixpoint forward (deltas : list (option jstring)) : prog unit :=
  match deltas with
  | [] => mret tt
  | delta :: rest =>
      match or_else delta [] with
      | [] => forward rest
      | content => _ ← res (Write (JObj [("content", JStr content)])); forward rest
      end
  end.

Arguments forward : simpl never.

(** [app.post('/chat/stream', ...)] *)
Definition chat_stream (query : option jstring) : prog unit :=
  try_catch
    (match query with
     | None | Some [] => reject_query
     | Some query =>
         match trim query with
         | [] => reject_query
         | _ :: _ =>
             _ ← res (SetHeader "Content-Type" "text/event-stream");
             _ ← res (SetHeader "Cache-Control" "no-cache");
             _ ← res (SetHeader "Connection" "keep-alive");
             queryEmbedding ← embeddingModel (VArr [VStr query]);
             searchResults ← await (Search collectionName (search_request (head queryEmbedding)));
             match searchResults with
             | [] =>
                 _ ← res (Write (JObj [ ("done", JBool true);
                                        ("answer", JStr (lit "No relevant context found.")) ]));
                 res End
             | _ :: _ =>
                 let context := context_of searchResults in
                 let systemPrompt := stream_preamble ++ context in
                 chatCompletion ← await (ChatCompletionsCreate (stream_request_of systemPrompt query));
                 _ ← forward (deltas chatCompletion);
                 _ ← match stream_failure chatCompletion with
                     | Some e => Throw e
                     | None => mret tt
                     end;
                 _ ← res (Write (JObj [("done", JBool true)]));
                 res End
             end
         end
     end)
    (λ error,
       _ ← res (Write (JObj [("error", JStr (message error))]));
       res End).

(** The HTTP response a handler's actions amount to. *)
Record http_response := {
  status : nat;
  headers : list (string * string);
  body : option json;            (* set by [res.json] *)
  sse : list json;               (* the events written, in order *)
  ended : bool
}.

Definition fresh_response : http_response :=
  {| status := 200; headers := []; body := None; sse := []; ended := false |}.

Definition apply_action (r : http_response) (a : res_action) : http_response :=
  match a with
  | SetHeader k v =>
      {| status := status r; headers := headers r ++ [(k, v)]; body := body r;
         sse := sse r; ended := ended r |}
  | Status c =>
      {| status := c; headers := headers r; body := body r;
         sse := sse r; ended := ended r |}
  | Json b =>
      {| status := status r; headers := headers r; body := Some b;
         sse := sse r; ended := true |}
  | Write d =>
      {| status := status r; headers := headers r; body := body r;
         sse := sse r ++ [d]; ended := ended r |}
  | End =>
      {| status := status r; headers := headers r; body := body r;
         sse := sse r; ended := true |}
  end.

Definition response_of (actions : list res_action) : http_response :=
  foldl apply_action fresh_response actions.

(* ===================================================================== *)
(** ** Reading a run: which calls were made, and how they were answered *)
(* ===================================================================== *)

Definition upsert_of (c : call) : option (jstring * bool * list point) :=
  match c with
  | Call ev _ =>
      match ev with
      | Upsert name wait pts => Some (name, wait, pts)
      | _ => None
      end
  end.

Definition is_upsert (c : call) : bool :=
  match upsert_of c with Some _ => true | None => false end.

Definition chat_request_in (c : call) : option chat_request :=
  match c with
  | Call ev _ =>
      match ev with
      | ChatCompletionsCreate req => Some req
      | _ => None
      end
  end.

(** A call to the Generation Provider. *)
Definition is_generation (c : call) : bool :=
  match chat_request_in c with Some _ => true | None => false end.

(** The answer of the embedding provider, when the call is one to it. *)
Definition embed_answer_of (c : call) : option (list jstring * (error + embed_response)) :=
  match c with
  | @Call R ev a =>
      match ev in event R return error + R → option (list jstring * (error + embed_response)) with
      | EmbedContent _ contents => λ a, Some (contents, a)
      | _ => λ _, None
      end a
  end.

(** The chunks the splitter returned. *)
Definition split_answer_of (c : call) : option (list jstring) :=
  match c with
  | @Call R ev a =>
      match ev in event R return error + R → option (list jstring) with
      | SplitText _ _ _ => λ a, match a with inr cs => Some cs | inl _ => None end
      | _ => λ _, None
      end a
  end.

(** The hits a vector search returned. *)
Definition search_answer_of (c : call) : option (list search_result) :=
  match c with
  | @Call R ev a =>
      match ev in event R return error + R → option (list search_result) with
      | Search _ _ => λ a, match a with inr rs => Some rs | inl _ => None end
      | _ => λ _, None
      end a
  end.

(** The embedding step of a run failed: the adapter threw on the answer it
    got. *)
Definition embedding_failed (c : call) : bool :=
  match embed_answer_of c with
  | Some (_, inl _) => true
  | Some (_, inr response) =>
      match embeddings response with [] => true | _ :: _ => false end
  | None => false
  end.

(** The fragments a streamed response carries, in order. *)
Definition fragment_of (ev : json) : option jstring :=
  match field "content" ev with
  | Some (JStr s) => Some s
  | _ => None
  end.

Definition streamed_text (r : http_response) : jstring :=
  concat (omap fragment_of (sse r)).

(** The [answer] of a batch response body. *)
Definition answer_of (r : http_response) : option jstring :=
  match body r with
  | Some b => match field "answer" b with Some (JStr s) => Some s | _ => None end
  | None => None
  end.

(* ===================================================================== *)
(** ** Interleaved runs of two handlers on one environment *)
(* ===================================================================== *)

(** One step of a handler: its next outside call is answered, or its next
    response action is taken.  A finished handler does not move. *)
Definition step {E : env} {A} (p : prog A) (w : world E) : prog A * world E :=
  match p with
  | Await ev k => let '(r, w') := handle E ev w in (k r, w')
  | Res _ k => (k, w)
  | _ => (p, w)
  end.

(** The worker runs its jobs concurrently ([concurrency: 10]); between two
    awaits of one job, another job may take steps.  A schedule says whose
    turn it is: [false] the first job, [true] the second. *)
Fixpoint interleave {E : env} {A} (schedule : list bool) (p1 p2 : prog A)
    (w : world E) : prog A * prog A * world E :=
  match schedule with
  | [] => (p1, p2, w)
  | false :: rest => let '(p1', w') := step p1 w in interleave rest p1' p2 w'
  | true :: rest => let '(p2', w') := step p2 w in interleave rest p1 p2' w'
  end.

(** [emit acts k]: take the response actions [acts], then go on as [k]. *)
Definition emit {A} (acts : list res_action) (k : prog A) : prog A :=
  foldr Res k acts.

Definition finished {A} (p : prog A) : option (outcome A) :=
  match p with
  | Ret a => Some (Returned a)
  | Throw e => Some (Thrown e)
  | _ => None
  end.

(* ===================================================================== *)
(** ** The chunker *)
(* ===================================================================== *)

(** Modelled from the spec: the Chunker.  The worker chunks with
    [CharacterTextSplitter] of the package [@langchain/textsplitters]; the
    source only fixes its parameters ([chunkSize: 1000], [chunkOverlap:
    100]), the splitter's own code is not part of the repository.  This is
    the chunker as section 4.1 of the specification words it: windows of
    [S] characters, each starting [S - O] characters after the previous
    one, so that neighbours share [O] characters; a text of at most [S]
    characters is one chunk, the empty text gives no chunk. *)
Fixpoint windows (fuel chunkSize chunkOverlap : nat) (t : jstring) : list jstring :=
  match fuel with
  | 0 => []
  | S fuel' =>
      match t with
      | [] => []
      | _ :: _ =>
          if length t <=? chunkSize then [t]
          else take chunkSize t
                 :: windows fuel' chunkSize chunkOverlap (drop (chunkSize - chunkOverlap) t)
      end
  end.

Definition splitText (chunkSize chunkOverlap : nat) (t : jstring) : list jstring :=
  windows (length t) chunkSize chunkOverlap t.

(** [ceil(a / b)] on naturals. *)
Definition ceil_div (a b : nat) : nat := (a + b - 1) / b.

(* ===================================================================== *)
(** ** A test double for the outside services *)
(* ===================================================================== *)

(** A vector index in memory: collections by name, the points of a
    collection by id.  [getCollection] fails on an unknown name,
    [createCollection] fails on a known one, [upsert] overwrites by point
    id, [search] returns up to [limit] stored points, all with score 1. *)
Record index_collection := {
  config : collection_config;
  stored : gmap nat point
}.

Abbreviation demo_world := (gmap (list N) index_collection).

Definition demo_text_a : jstring := lit "Refunds are accepted within thirty days.".
Definition demo_text_b : jstring := lit "Shipping takes five working days.".

Definition demo_file (p : jstring) : option (list N) :=
  if bool_decide (p = lit "uploads/a.pdf") then Some demo_text_a
  else if bool_decide (p = lit "uploads/b.pdf") then Some demo_text_b
  else if bool_decide (p = lit "uploads/empty.pdf") then Some []
  else None.

Definition demo_embedding (t : jstring) : content_embedding :=
  {| values := [float_one; float_zero] |}.

Definition demo_hit (kv : nat * point) : search_result :=
  {| result_id := kv.1; score := float_one; result_payload := point_payload kv.2 |}.

(** The generation double repeats the user's message: whole in batch mode,
    one code unit per chunk in streaming mode, between a first and a last
    chunk without content. *)
Definition demo_user_message (req : chat_request) : jstring :=
  default [] (content <$> last (messages req)).

Definition demo_generate (req : chat_request) : chat_result (stream req) :=
  match stream req as b return chat_result b with
  | true =>
      {| deltas := None :: ((λ c, Some [c]) <$> demo_user_message req) ++ [None];
         stream_failure := None |}
  | false => {| first_content := Some (demo_user_message req) |}
  end.

Definition demo_handle (R : Type) (ev : event R) : demo_world → (error + R) * demo_world :=
  match ev in event R return demo_world → (error + R) * demo_world with
  | ReadFile p => λ w,
      (match demo_file p with
       | Some b => inr b
       | None => inl (Error (lit "ENOENT: no such file or directory"))
       end, w)
  | PdfParse buffer => λ w, (inr {| pdf_text := buffer |}, w)
  | SplitText chunkSize chunkOverlap t => λ w,
      (inr (splitText chunkSize chunkOverlap t), w)
  | EmbedContent _ contents => λ w,
      (inr {| embeddings := demo_embedding <$> contents |}, w)
  | GetCollection name => λ w,
      (match w !! name with
       | Some _ => inr tt
       | None => inl (Error (lit "Not found: collection does not exist"))
       end, w)
  | CreateCollection name cfg => λ w,
      match w !! name with
      | Some _ => (inl (Error (lit "Conflict: collection already exists")), w)
      | None => (inr tt, <[name := {| config := cfg; stored := ∅ |}]> w)
      end
  | Upsert name _ pts => λ w,
      match w !! name with
      | Some col =>
          (inr tt,
           <[name := {| config := config col;
                        stored := foldl (λ m p, <[id p := p]> m) (stored col) pts |}]> w)
      | None => (inl (Error (lit "Not found: collection does not exist")), w)
      end
  | Search name params => λ w,
      (match w !! name with
       | Some col => inr (take (limit params) (demo_hit <$> map_to_list (stored col)))
       | None => inl (Error (lit "Not found: collection does not exist"))
       end, w)
  | ChatCompletionsCreate req => λ w, (inr (demo_generate req), w)
  end.

Definition demo : env := {| world := demo_world; handle := demo_handle |}.

Definition job_a : job_data :=
  {| filename := lit "a.pdf"; destination := lit "uploads"; path := lit "uploads/a.pdf" |}.

Definition job_b : job_data :=
  {| filename := lit "b.pdf"; destination := lit "uploads"; path := lit "uploads/b.pdf" |}.

(** An index that has the collection, with nothing in it. *)
Definition empty_index : demo_world :=
  {[ collectionName := {| config := {| size := 2; distance := lit "Cosine" |};
                          stored := ∅ |} ]}.

(* ===================================================================== *)
(** ** What the specification calls things *)
(* ===================================================================== *)

(** The event that carries one fragment, and the fragments a provider
    stream amounts to: the non-empty contents of its chunks, in order. *)
Definition content_event (s : jstring) : json := JObj [("content", JStr s)].

Definition fragments (ds : list (option jstring)) : list jstring :=
  filter (λ s, s ≠ []) (default [] <$> ds).

Arguments fragments : simpl never.

(** A query that is absent, empty or made of white space only. *)
Definition blank (query : option jstring) : Prop :=
  match query with
  | None => True
  | Some s => Forall (λ c, is_ws c = true) s
  end.



(** The context block as the specification words it: the retrieved chunks
    in the order of the search result, each under its rank, ranks counted
    from [rank]. *)
Definition ranked_label (rank : nat) (hit : search_result) : jstring :=
  lit "[Chunk " ++ nat_to_jstring rank ++ lit "] "
  ++ default (lit "undefined") (text (result_payload hit)).

Fixpoint ranked_from (rank : nat) (hits : list search_result) : jstring :=
  match hits with
  | [] => []
  | [hit] => ranked_label rank hit
  | hit :: rest => ranked_label rank hit ++ newline ++ newline ++ ranked_from (S rank) rest
  end.

(** A response that reports an empty source list: a [sources] property
    holding the empty array, in the body or in a streamed event. *)
Definition reports_no_sources (r : http_response) : Prop :=
  (∃ b, body r = Some b ∧ field "sources" b = Some (JArr [])) ∨
  (∃ ev, ev ∈ sse r ∧ field "sources" ev = Some (JArr [])).

(** The response of the batch endpoint when the search finds nothing. *)
Definition no_context_response : http_response :=
  {| status := 200; headers := [];
     body := Some (JObj [ ("answer", JStr no_context_answer); ("sources", JArr []) ]);
     sse := []; ended := true |}.

(** The response of the streaming endpoint when the search finds
    nothing. *)
Definition no_context_stream : http_response :=
  {| status := 200;
     headers := [ ("Content-Type", "text/event-stream");
                  ("Cache-Control", "no-cache");
                  ("Connection", "keep-alive") ];
     body := None;
     sse := [ JObj [ ("done", JBool true);
                     ("answer", JStr (lit "No relevant context found.")) ] ];
     ended := true |}.

(** The [sources] of a batch response body. *)
Definition sources_of (r : http_response) : list json :=
  match body r with
  | Some b => match field "sources" b with Some (JArr l) => l | _ => [] end
  | None => []
  end.

Definition demo_query : jstring := lit "What is the refund policy?".

(** The index after the job for [uploads/a.pdf] ran on an empty one. *)
Definition index_a : demo_world := final (@exec demo _ (worker job_a) ∅).

(** What the search of [index_a] returns. *)
Definition demo_hit_a : search_result :=
  {| result_id := 1; score := float_one;
     result_payload := {| text := Some demo_text_a; chunk_index := 0;
                          source := lit "uploads/a.pdf" |} |}.

Definition demo_hits : list search_result := [demo_hit_a].

(** The source entry the batch endpoint builds for the hit of rank
    [rank] whose stored text is [t], under the property names of the
    source. *)
Definition source_json (rank : nat) (hit : search_result) (t : jstring) : json :=
  JObj [ ("chunk_index", JNum (Z.of_nat rank));
         ("text", JStr (take 200 t ++ lit "..."));
         ("score", JFloat (score hit));
         ("source", JStr (source (result_payload hit))) ].

(** A job for a document without text: no chunk, so the provider returns
    no embedding and the adapter throws. *)
Definition job_empty : job_data :=
  {| filename := lit "empty.pdf"; destination := lit "uploads";
     path := lit "uploads/empty.pdf" |}.

(** The points the two demo jobs upsert. *)
Definition point_a : point :=
  {| id := 1; vector_of := [float_one; float_zero];
     point_payload := {| text := Some demo_text_a; chunk_index := 0;
                         source := lit "uploads/a.pdf" |} |}.

Definition point_b : point :=
  {| id := 1; vector_of := [float_one; float_zero];
     point_payload := {| text := Some demo_text_b; chunk_index := 0;
                         source := lit "uploads/b.pdf" |} |}.

(** The points stored in the collection of the deployment. *)
Definition stored_points (w : demo_world) : list (nat * point) :=
  match w !! collectionName with
  | Some col => map_to_list (stored col)
  | None => []
  end.

(** Two jobs start on an index without the collection.  Each gets as far
    as its [getCollection] before the other creates the collection: the
    first job takes five steps, then the second takes five, then each
    tries to create, and the first upserts. *)
Definition racing_schedule : list bool :=
  [ false; false; false; false; false;
    true; true; true; true; true;
    false; true; false ].

(** The error the embedding adapter throws on a [docs] that is not an
    array. *)
Definition validation_error : error :=
  Error (lit "docs must be an array of strings").

(** What the adapter makes of the provider's answer: a rejection is
    re-thrown, an answer without embeddings fails on [embeddings[0].length],
    anything else is returned as the list of [values]. *)
Definition adapter_outcome (answer : error + embed_response) : outcome (list vector) :=
  match answer with
  | inl e => Thrown e
  | inr response =>
      match values <$> embeddings response with
      | [] => Thrown (TypeError (lit "Cannot read properties of undefined (reading 'length')"))
      | vs => Returned vs
      end
  end.

(** The runs of the worker that reach the upsert: it is the last call, it
    is the only upsert, and before it the splitter returned [chunks] and
    the provider answered the one embedding call, made for all the chunks,
    with one embedding or more. *)
Definition upserted_after_embeddings {E : env} (data : job_data)
    (r : run E job_result) : Prop :=
  ∃ before answer chunks response,
    calls r = before ++
      [Call (Upsert collectionName true
               (points data chunks (values <$> embeddings response))) answer] ∧
    existsb is_upsert before = false ∧
    omap split_answer_of before = [chunks] ∧
    omap embed_answer_of before = [(chunks, inr response)] ∧
    embeddings response ≠ [].

(* ===================================================================== *)
(** ** More ways to read a run *)
(* ===================================================================== *)

(** The error a call was answered with, if it was rejected. *)
Definition call_error (c : call) : option error :=
  match c with
  | Call _ (inl e) => Some e
  | Call _ (inr _) => None
  end.

(** The collection and the parameters of a vector search. *)
Definition search_request_in (c : call) : option (jstring * search_params) :=
  match c with
  | Call ev _ =>
      match ev with
      | Search name params => Some (name, params)
      | _ => None
      end
  end.

(** The configuration a collection is created with. *)
Definition create_request_in (c : call) : option (jstring * collection_config) :=
  match c with
  | Call ev _ =>
      match ev with
      | CreateCollection name cfg => Some (name, cfg)
      | _ => None
      end
  end.

(** A [getCollection] that was rejected, for whatever reason. *)
Definition get_collection_failed (c : call) : bool :=
  match c with
  | Call ev a =>
      match ev with
      | GetCollection _ => match call_error c with Some _ => true | None => false end
      | _ => false
      end
  end.

(** The chunk stream the Generation Provider answered a streaming request
    with. *)
Definition stream_answer_of (c : call) : option chunk_stream :=
  match c with
  | @Call R ev a =>
      match ev in event R return error + R → option chunk_stream with
      | ChatCompletionsCreate req =>
          match stream req as b return error + chat_result b → option chunk_stream with
          | true => λ a, match a with inr s => Some s | inl _ => None end
          | false => λ _, None
          end
      | _ => λ _, None
      end a
  end.

(** The body of the batch endpoint's failure response. *)
Definition chat_failure_body (e : error) : json :=
  JObj [ ("error", JStr (lit "Failed to process chat request"));
         ("details", JStr (message e)) ].

Definition error_event (e : error) : json := JObj [("error", JStr (message e))].

Definition done_event : json := JObj [("done", JBool true)].

(** The last event of a stream that went through the provider's chunks:
    the failure the chunks ended with, or the end marker. *)
Definition closing_event (s : chunk_stream) : json :=
  match stream_failure s with
  | Some e => error_event e
  | None => done_event
  end.

(** The headers of a server-sent event stream, as the streaming endpoint
    sets them. *)
Definition sse_headers : list (string * string) :=
  [ ("Content-Type", "text/event-stream");
    ("Cache-Control", "no-cache");
    ("Connection", "keep-alive") ].

(** An event that ends a stream: it has a [done] or an [error] property. *)
Definition is_terminal (ev : json) : bool :=
  match field "done" ev, field "error" ev with
  | None, None => false
  | _, _ => true
  end.

(** The preview of a source entry. *)
Definition preview_of (entry : json) : option jstring :=
  match field "text" entry with
  | Some (JStr s) => Some s
  | _ => None
  end.

(** The outside calls one query may make, in order: the embedding of the
    query alone; then the search of the collection with the first
    embedding returned, for the top 5 hits with their payloads; then one
    request to the Generation Provider. *)
Definition query_calls (query : option jstring) (cs : list call) : Prop :=
  cs = [] ∨
  ∃ q embed_answer,
    query = Some q ∧
    let embed := Call (EmbedContent (lit "gemini-embedding-001") [q]) embed_answer in
    cs = [embed] ∨
    ∃ response vec0 search_answer,
      embed_answer = inr response ∧
      head (values <$> embeddings response) = Some vec0 ∧
      let search := Call (Search collectionName (search_request (Some vec0))) search_answer in
      cs = [embed; search] ∨
      ∃ req generation_answer,
        cs = [embed; search; Call (ChatCompletionsCreate req) generation_answer].

(* ===================================================================== *)
(** ** The uploads directory and its clean-up *)
(* ===================================================================== *)

(** What [statSync] tells of an entry of the uploads directory, as far as
    the server looks at it: the modification time in milliseconds (a
    binary64 value, hence a rational) and whether the entry is a
    directory, which [unlinkSync] refuses to remove. *)
Record dir_entry := { mtimeMs : Q; is_directory : bool }.

(** The uploads directory: its entries by name, in the order [readdirSync]
    lists them. *)
Abbreviation directory := (list (jstring * dir_entry)).

(** The error codes of the file system calls. *)
Inductive fs_error : Type :=
  | ENOENT
  | EISDIR.

(** [fs.readdirSync(uploadDir)]; the directory itself may be missing
    ([None]). *)
Definition readdirSync (fs : option directory) : fs_error + list jstring :=
  match fs with
  | None => inl ENOENT
  | Some d => inr (d.*1)
  end.

(** [fs.statSync(path.join(uploadDir, file))] *)
Fixpoint statSync (file : jstring) (d : directory) : fs_error + dir_entry :=
  match d with
  | [] => inl ENOENT
  | (name, entry) :: rest =>
      if decide (name = file) then inr entry else statSync file rest
  end.

(** [fs.unlinkSync(path.join(uploadDir, file))] *)
Fixpoint unlinkSync (file : jstring) (d : directory) : fs_error + directory :=
  match d with
  | [] => inl ENOENT
  | (name, entry) :: rest =>
      if decide (name = file) then
        if is_directory entry then inl EISDIR else inr rest
      else
        match unlinkSync file rest with
        | inl err => inl err
        | inr rest' => inr ((name, entry) :: rest')
        end
  end.

(** [60 * 60 * 1000] *)
Definition oneHour : Q := inject_Z (60 * 60 * 1000).

(** [now - stats.mtimeMs > oneHour]; the subtraction of two time stamps in
    milliseconds is exact in binary64. *)
Definition is_old (now : Q) (stats : dir_entry) : bool :=
  negb (Qle_bool (now - mtimeMs stats) oneHour).

(** The loop of [cleanupOldFiles] over the names read; an error of a file
    system call leaves the loop.  [deleted] are the names logged as
    deleted, so [deletedCount] is their number. *)
Fixpoint sweep (now : Q) (files : list jstring) (d : directory)
    (deleted : list jstring) : directory * list jstring * option fs_error :=
  match files with
  | [] => (d, deleted, None)
  | file :: rest =>
      match statSync file d with
      | inl err => (d, deleted, Some err)
      | inr stats =>
          if is_old now stats then
            match unlinkSync file d with
            | inl err => (d, deleted, Some err)
            | inr d' => sweep now rest d' (deleted ++ [file])
            end
          else sweep now rest d deleted
      end
  end.

(** What a run of [cleanupOldFiles] leaves: the directory, the names it
    deleted, and the error its [catch] logged, if any. *)
Record cleanup_report := {
  remaining : option directory;
  deleted : list jstring;
  caught : option fs_error
}.

(** [cleanupOldFiles()], run at time [now] ([Date.now()]). *)
Definition cleanupOldFiles (now : Q) (fs : option directory) : cleanup_report :=
  match readdirSync fs, fs with
  | inr files, Some d =>
      let '(d', deleted, err) := sweep now files d [] in
      {| remaining := Some d'; deleted := deleted; caught := err |}
  | _, _ => {| remaining := fs; deleted := []; caught := Some ENOENT |}
  end.

(** The loop of the manual clean-up: every name read is unlinked. *)
Fixpoint unlink_all (files : list jstring) (d : directory) (deletedCount : nat)
    : directory * nat * option fs_error :=
  match files with
  | [] => (d, deletedCount, None)
  | file :: rest =>
      match unlinkSync file d with
      | inl err => (d, deletedCount, Some err)
      | inr d' => unlink_all rest d' (deletedCount + 1)
      end
  end.

Definition cleanup_failed : list res_action :=
  [ Status 500; Json (JObj [("error", JStr (lit "Cleanup failed"))]) ].

(** [app.delete('/cleanup/files', ...)]: the directory it leaves and the
    response. *)
Definition cleanup_files (fs : option directory) : option directory * list res_action :=
  match readdirSync fs, fs with
  | inr files, Some d =>
      match unlink_all files d 0 with
      | (d', deletedCount, None) =>
          (Some d',
           [ Json (JObj [ ("message", JStr (lit "Cleanup completed"));
                          ("filesDeleted", JNum (Z.of_nat deletedCount)) ]) ])
      | (d', _, Some _) => (Some d', cleanup_failed)
      end
  | _, _ => (fs, cleanup_failed)
  end.

(** Entries the sweep keeps and entries it removes. *)
Definition kept (now : Q) (d : directory) : directory :=
  filter (λ ne, is_old now ne.2 = false) d.

Definition swept (now : Q) (d : directory) : list jstring :=
  (filter (λ ne, is_old now ne.2 = true) d).*1.

(** No entry that is due for removal is a directory. *)
Definition old_are_files (now : Q) (d : directory) : Prop :=
  Forall (λ ne, is_old now ne.2 = true → is_directory ne.2 = false) d.

(** A small uploads directory: a file older than one hour, a file exactly
    one hour old, an old subdirectory, and another old file after it. *)
Definition demo_now : Q := inject_Z 7200000.

Definition old_file : dir_entry := {| mtimeMs := inject_Z 0; is_directory := false |}.
Definition hour_old_file : dir_entry := {| mtimeMs := inject_Z 3600000; is_directory := false |}.
Definition old_directory : dir_entry := {| mtimeMs := inject_Z 0; is_directory := true |}.

Definition demo_uploads : directory :=
  [ (lit "pdf-1.pdf", old_file); (lit "pdf-2.pdf", hour_old_file) ].

Definition demo_uploads_blocked : directory :=
  [ (lit "pdf-1.pdf", old_file); (lit "tmp", old_directory); (lit "pdf-3.pdf", old_file) ].

(* ===================================================================== *)
(** ** The upload endpoint *)
(* ===================================================================== *)

(** [req.file], as multer's disk storage fills it in. *)
Record uploaded_file := {
  file_fieldname : jstring;
  file_originalname : jstring;
  file_mimetype : jstring;
  file_destination : jstring;
  file_filename : jstring;
  file_path : jstring;
  file_size : nat
}.

(** [fileFilter(req, file, cb)]: what is handed to [cb], an error or the
    decision to keep the file. *)
Definition fileFilter (mimetype : jstring) : error + bool :=
  if decide (mimetype = lit "application/pdf") then inr true
  else inl (Error (lit "Only PDF files are allowed!")).

(** The errors that reach the error-handling middleware: a
    [multer.MulterError] with its [code], or any other error. *)
Inductive request_error : Type :=
  | MulterError (code : jstring) (msg : jstring)
  | OtherError (e : error).

Definition request_error_message (err : request_error) : jstring :=
  match err with
  | MulterError _ msg => msg
  | OtherError e => message e
  end.

(** [app.use((error, req, res, next) => ...)] *)
Definition error_middleware (err : request_error) : list res_action :=
  match err with
  | MulterError code _ =>
      if decide (code = lit "LIMIT_FILE_SIZE") then
        [ Status 400;
          Json (JObj [("error", JStr (lit "File size is too large. Max size is 10MB"))]) ]
      else
        [ Status 500; Json (JObj [("error", JStr (request_error_message err))]) ]
  | OtherError _ =>
      [ Status 500; Json (JObj [("error", JStr (request_error_message err))]) ]
  end.

(** The message the upload endpoint puts on the queue; the worker reads it
    back as [JSON.parse(job.data)]. *)
Definition job_of (file : uploaded_file) : job_data :=
  {| filename := file_filename file;
     destination := file_destination file;
     path := file_path file |}.

(** A run of the upload handler: the job it asked the queue to add, if it
    got that far, and its response. *)
Record upload_run := {
  enqueued : option (jstring * job_data);
  upload_actions : list res_action
}.

(** [app.post('/upload/pdf', upload.single('pdf'), ...)], given how the
    queue answers [queue.add]. *)
Definition upload_pdf (file : option uploaded_file) (add_answer : error + unit)
    : upload_run :=
  match file with
  | None =>
      {| enqueued := None;
         upload_actions :=
           [ Status 400; Json (JObj [("error", JStr (lit "No file uploaded"))]) ] |}
  | Some f =>
      {| enqueued := Some (lit "file-ready", job_of f);
         upload_actions :=
           match add_answer with
           | inr _ =>
               [ Json (JObj [ ("message", JStr (lit "uploaded and enqueued"));
                              ("file",
                               JObj [ ("filename", JStr (file_filename f));
                                      ("size", JNum (Z.of_nat (file_size f)));
                                      ("mimetype", JStr (file_mimetype f)) ]) ]) ]
           | inl _ =>
               [ Status 500; Json (JObj [("error", JStr (lit "File upload failed"))]) ]
           end |}
  end.

Definition demo_upload : uploaded_file :=
  {| file_fieldname := lit "pdf";
     file_originalname := lit "policy.pdf";
     file_mimetype := lit "application/pdf";
     file_destination := lit "uploads";
     file_filename := lit "a.pdf";
     file_path := lit "uploads/a.pdf";
     file_size := 40 |}.

(** The chunk stream the generation double answers [demo_query] with. *)
Definition demo_stream : chunk_stream :=
  {| deltas := None :: ((λ c, Some [c]) <$> demo_query) ++ [None];
     stream_failure := None |}.

(** The rejection of the index double when the collection is missing. *)
Definition demo_not_found : error :=
  Error (lit "Not found: collection does not exist").







(* ===================================================================== *)
(** ** Requests as they reach the chat endpoints *)
(* ===================================================================== *)









(** An object that [String] cannot convert, as [JSON.parse] builds it from
    [{"toString": 1}]. *)
Definition unprintable : jsval := VObj [("toString", VNum 1 I)].
(* ===================================================================== *)
(** ** Properties of the embedding adapter *)
(* ===================================================================== *)

Lemma embeddingModel_array (E : env) (items : list jsval) (w : world E) :
  existsb String_throws items = false →
  let r := exec (embeddingModel (VArr items)) w in
  let ev := EmbedContent (lit "gemini-embedding-001") (String_ <$> items) in
  calls r = [Call ev (handle E ev w).1] ∧
  result r = adapter_outcome (handle E ev w).1 ∧
  final r = (handle E ev w).2 ∧
  actions r = [].
Proof.
  intros Hok. cbn. rewrite Hok. cbn.
  destruct (handle E _ w) as [[e|response] w']; cbn; [done|].
  destruct (values <$> embeddings response); done.
Qed.

(** When the coercion of an element throws, the adapter throws that
    [TypeError] and the provider is not called. *)
Lemma embeddingModel_coercion_throws (E : env) (items : list jsval) (w : world E) :
  existsb String_throws items = true →
  exec (embeddingModel (VArr items)) w
  = {| result := Thrown cannot_convert; final := w; calls := []; actions := [] |}.
Proof. intros Hthrows. cbn. by rewrite Hthrows. Qed.

Lemma String_throws_VStr (l : list jstring) : existsb String_throws (VStr <$> l) = false.
Proof. induction l as [|x l IH]; cbn; [done | exact IH]. Qed.

(** Strings pass the coercion unchanged, and every element gives one
    string, at its position. *)
Lemma String_fmap_lookup (items : list jsval) :
  length (String_ <$> items) = length items ∧
  ∀ i s, items !! i = Some (VStr s) → (String_ <$> items) !! i = Some s.
Proof.
  split; [apply length_fmap|].
  intros i s Hi. by rewrite list_lookup_fmap, Hi.
Qed.

(** C10, as amended.  The adapter throws its validation error, before any
    call to the provider, exactly when [docs] is not an array.  For an
    array, every element is coerced by [String] before anything is sent:
    when the coercion of an element throws (an object with an own
    [toString] property, alone or inside an array) the adapter throws that
    [TypeError] and the provider is not called; otherwise exactly one call
    is made, with one string per element, in order, strings unchanged, and
    the outcome is a function of the provider's answer alone. *)
Theorem embeddingModel_validation_and_coercion (E : env) (docs : jsval) (w : world E) :
  let r := exec (embeddingModel docs) w in
  ((result r = Thrown validation_error ∧ calls r = []) ↔ isArray docs = false) ∧
  match docs with
  | VArr items =>
      if existsb String_throws items then
        result r = Thrown cannot_convert ∧ calls r = []
      else
        ∃ contents answer,
          calls r = [Call (EmbedContent (lit "gemini-embedding-001") contents) answer] ∧
          result r = adapter_outcome answer ∧
          Forall2 (λ v c, c = String_ v) items contents ∧
          length contents = length items ∧
          ∀ i s, items !! i = Some (VStr s) → contents !! i = Some s
  | _ => True
  end.
Proof.
  destruct docs as [| |b|n safe|s|items|fields]; try (cbn; split; [split; done | done]).
  cbv zeta. destruct (existsb String_throws items) eqn:Hthrows.
  - rewrite (embeddingModel_coercion_throws E items w Hthrows). cbn.
    split; [|done]. split; [intros [[=] _] | discriminate].
  - destruct (embeddingModel_array E items w Hthrows) as (Hc & Hr & _).
    cbv zeta in Hc, Hr. split.
    + rewrite Hc. split; [intros [_ ?]; discriminate | discriminate].
    + destruct (String_fmap_lookup items) as [Hlen Hstr].
      exists (String_ <$> items). eexists. split; [exact Hc|]. split; [exact Hr|].
      split; [|by split].
      apply Forall2_fmap_r, Forall_Forall2_diag, Forall_forall. done.
Qed.

Lemma embeddingModel_validation_and_coercion_witness :
  let docs := VArr [VStr demo_query; VNull] in
  let r := @exec demo _ (embeddingModel docs) ∅ in
  ∃ contents answer,
    calls r = [Call (EmbedContent (lit "gemini-embedding-001") contents) answer] ∧
    result r = adapter_outcome answer ∧
    Forall2 (λ v c, c = String_ v) [VStr demo_query; VNull] contents ∧
    length contents = 2 ∧
    ∀ i s, [VStr demo_query; VNull] !! i = Some (VStr s) → contents !! i = Some s.
Proof.
  exact (proj2 (embeddingModel_validation_and_coercion demo
                  (VArr [VStr demo_query; VNull]) ∅)).
Defined.

(** C10 as stated fails on the content of an element: an array whose
    second element is an object with an own [toString] property makes the
    adapter throw a [TypeError], which is not the validation error, before
    the provider is called; the same array without that element is
    embedded. *)
Lemma embeddingModel_fails_on_unprintable_element :
  let r := @exec demo _ (embeddingModel (VArr [VStr demo_query; unprintable])) ∅ in
  let r' := @exec demo _ (embeddingModel (VArr [VStr demo_query])) ∅ in
  isArray (VArr [VStr demo_query; unprintable]) = true ∧
  result r = Thrown cannot_convert ∧
  calls r = [] ∧
  cannot_convert ≠ validation_error ∧
  result r' = Returned [[float_one; float_zero]].
Proof. repeat split; try (vm_compute; reflexivity). discriminate. Qed.

(* ===================================================================== *)
(** ** Strings *)
(* ===================================================================== *)

Lemma String_VStr (l : list jstring) : String_ <$> (VStr <$> l) = l.
Proof. induction l as [|x l IH]; cbn; [done | by rewrite IH]. Qed.

Lemma trim_start_nil (s : jstring) :
  trim_start s = [] ↔ Forall (λ c, is_ws c = true) s.
Proof.
  induction s as [|c s IH]; cbn.
  - split; [constructor | done].
  - destruct (is_ws c) eqn:Hc.
    + rewrite IH. split; [by constructor | by inversion 1].
    + split; [done | inversion 1; congruence].
Qed.

Lemma trim_start_head (s : jstring) c s' :
  trim_start s = c :: s' → is_ws c = false.
Proof.
  induction s as [|d s IH]; cbn; [done|].
  destruct (is_ws d) eqn:Hd; [done | congruence].
Qed.

(** [s.trim() === ''] holds exactly for the strings of white space. *)
Lemma trim_nil (s : jstring) :
  trim s = [] ↔ Forall (λ c, is_ws c = true) s.
Proof.
  unfold trim. split.
  - intros H. apply (f_equal reverse) in H. rewrite reverse_involutive in H.
    cbn in H. apply trim_start_nil.
    destruct (trim_start s) as [|c s'] eqn:Hs; [done|].
    apply trim_start_head in Hs.
    apply trim_start_nil, Forall_reverse in H.
    rewrite reverse_involutive in H. inversion H; congruence.
  - intros H. apply trim_start_nil in H. by rewrite H.
Qed.

(* ===================================================================== *)
(** ** Programs and runs *)
(* ===================================================================== *)

Lemma bind_emit {A B} (acts : list res_action) (k : prog A) (f : A → prog B) :
  bind (emit acts k) f = emit acts (bind k f).
Proof. unfold emit. induction acts as [|a acts IH]; cbn; [done | by rewrite IH]. Qed.

Lemma try_catch_emit {A} (acts : list res_action) (k : prog A) (h : error → prog A) :
  try_catch (emit acts k) h = emit acts (try_catch k h).
Proof. unfold emit. induction acts as [|a acts IH]; cbn; [done | by rewrite IH]. Qed.

Lemma exec_emit {E : env} {A} (acts : list res_action) (k : prog A) (w : world E) :
  exec (emit acts k) w =
  {| result := result (exec k w); final := final (exec k w);
     calls := calls (exec k w); actions := acts ++ actions (exec k w) |}.
Proof.
  unfold emit. induction acts as [|a acts IH]; cbn.
  - by destruct (exec k w).
  - by rewrite IH.
Qed.

(** The contents the loop of the streaming endpoint forwards. *)
Lemma forward_emit (ds : list (option jstring)) :
  forward ds = emit (Write <$> (content_event <$> fragments ds)) (Ret tt).
Proof.
  induction ds as [|d ds IH]; [done|].
  unfold forward; fold forward. rewrite IH.
  destruct d as [[|c s]|]; done.
Qed.

(** The events of a list of writes are appended to the stream; nothing
    else of the response moves. *)
Lemma foldl_writes (r : http_response) (ds : list json) :
  foldl apply_action r (Write <$> ds) =
  {| status := status r; headers := headers r; body := body r;
     sse := sse r ++ ds; ended := ended r |}.
Proof.
  revert r. induction ds as [|d ds IH]; intros r; cbn.
  - rewrite app_nil_r. by destruct r.
  - rewrite IH. cbn. by rewrite <- app_assoc.
Qed.

(** The source list of the batch endpoint: either every hit has a text and
    there is one entry per hit, or building the list throws. *)
Lemma source_entries_cases (idx : nat) (rs : list search_result) :
  (∃ l, source_entries idx rs = Ret l ∧ length l = length rs ∧
        ∀ j r, rs !! j = Some r →
          ∃ t, text (result_payload r) = Some t ∧
               l !! j = Some (JObj [ ("chunk_index", JNum (Z.of_nat (idx + j + 1)));
                                     ("text", JStr (substring0 200 t ++ lit "..."));
                                     ("score", JFloat (score r));
                                     ("source", JStr (source (result_payload r))) ]))
  ∨ source_entries idx rs =
      Throw (TypeError (lit "Cannot read properties of undefined (reading 'substring')")).
Proof.
  revert idx. induction rs as [|r rs IH]; intros idx.
  - left. exists []. repeat split; [done..|]. intros j r Hj. by destruct j.
  - unfold source_entries; fold source_entries. unfold source_entry.
    destruct (text (result_payload r)) as [t|] eqn:Ht; [|by right].
    cbn. destruct (IH (S idx)) as [(l & Hl & Hlen & Hent) | Hthrow].
    + left. rewrite Hl. cbn. eexists. split; [done|]. split; [cbn; by rewrite Hlen|].
      intros [|j] r' Hj; cbn in *.
      * injection Hj as <-. exists t. split; [done|]. by rewrite Nat.add_0_r.
      * destruct (Hent j r' Hj) as (t' & Ht' & Hl'). exists t'. split; [done|].
        replace (idx + S j + 1) with (S (idx + j + 1)) by lia. exact Hl'.
    + right. by rewrite Hthrow.
Qed.

(** Case analysis on the answer to the next outside call of a run. *)
Ltac answer_next :=
  match goal with
  | |- context [handle ?E ?ev ?w] =>
      let e := fresh "e" in
      let a := fresh "a" in
      let w' := fresh "w" in
      destruct (handle E ev w) as [[e|a] w'] eqn:?; cbn
  end.

(** The streaming loop, once the provider has answered. *)
Ltac stream_loop :=
  rewrite forward_emit; unfold mbind, prog_bind;
  rewrite bind_emit, try_catch_emit, exec_emit; cbn.

(* ===================================================================== *)
(** ** Validation of the query *)
(* ===================================================================== *)







(* ===================================================================== *)
(** ** A search without results *)
(* ===================================================================== *)

Lemma chat_zero_results (E : env) (query : option jstring) (w : world E) :
  let b := exec (chat query) w in
  omap search_answer_of (calls b) = [[]] →
  result b = Returned tt ∧
  response_of (actions b) = no_context_response ∧
  existsb is_generation (calls b) = false.
Proof.
  unfold chat. destruct query as [[|c q]|]; try done.
  destruct (trim (c :: q)) as [|c' q'] eqn:Htrim; [done|].
  cbn. answer_next; [done|].
  destruct (values <$> embeddings a) as [|vec0 vs]; cbn; [done|].
  answer_next; [done|].
  destruct a0 as [|r0 rs]; cbn; [done|].
  answer_next; [done|].
  destruct (source_entries_cases 0 (r0 :: rs)) as [(l & -> & _) | ->]; cbn; done.
Qed.

Lemma chat_stream_zero_results (E : env) (query : option jstring) (w : world E) :
  let s := exec (chat_stream query) w in
  omap search_answer_of (calls s) = [[]] →
  result s = Returned tt ∧
  response_of (actions s) = no_context_stream ∧
  existsb is_generation (calls s) = false.
Proof.
  unfold chat_stream. destruct query as [[|c q]|]; try done.
  destruct (trim (c :: q)) as [|c' q'] eqn:Htrim; [done|].
  cbn. answer_next; [done|].
  destruct (values <$> embeddings a) as [|vec0 vs]; cbn; [done|].
  answer_next; [done|].
  destruct a0 as [|r0 rs]; cbn; [done|].
  answer_next; [done|].
  stream_loop. destruct (stream_failure a0); cbn; done.
Qed.

(** C3, as amended.  When the vector search returns no result, the batch
    endpoint answers with status 200, the canned answer and an empty
    [sources] list; the streaming endpoint writes one final event that
    carries its own canned answer; both return normally, and neither calls
    the Generation Provider. *)
Theorem zero_results_canned_answer (E : env) (query : option jstring) (w : world E) :
  let b := exec (chat query) w in
  let s := exec (chat_stream query) w in
  (omap search_answer_of (calls b) = [[]] →
     result b = Returned tt ∧
     response_of (actions b) = no_context_response ∧
     existsb is_generation (calls b) = false) ∧
  (omap search_answer_of (calls s) = [[]] →
     result s = Returned tt ∧
     response_of (actions s) = no_context_stream ∧
     existsb is_generation (calls s) = false).
Proof. split; [apply chat_zero_results | apply chat_stream_zero_results]. Qed.

Lemma zero_results_canned_answer_witness :
  let b := @exec demo _ (chat (Some demo_query)) empty_index in
  let s := @exec demo _ (chat_stream (Some demo_query)) empty_index in
  omap search_answer_of (calls b) = [[]] ∧
  omap search_answer_of (calls s) = [[]] ∧
  response_of (actions b) = no_context_response ∧
  response_of (actions s) = no_context_stream.
Proof.
  pose proof (zero_results_canned_answer demo (Some demo_query) empty_index) as [Hb Hs].
  assert (H1 : omap search_answer_of
                 (calls (@exec demo _ (chat (Some demo_query)) empty_index)) = [[]])
    by (vm_compute; reflexivity).
  assert (H2 : omap search_answer_of
                 (calls (@exec demo _ (chat_stream (Some demo_query)) empty_index)) = [[]])
    by (vm_compute; reflexivity).
  split; [exact H1|]. split; [exact H2|].
  split; [exact (proj1 (proj2 (Hb H1))) | exact (proj1 (proj2 (Hs H2)))].
Defined.

(** C3 as stated fails on the streaming endpoint: its search returned no
    result, and its response reports no [sources] list. *)
Lemma stream_zero_results_without_sources :
  let s := @exec demo _ (chat_stream (Some demo_query)) empty_index in
  omap search_answer_of (calls s) = [[]] ∧
  ¬ reports_no_sources (response_of (actions s)).
Proof.
  split; [vm_compute; reflexivity|].
  intros [(b & Hb & _) | (ev & Hev & Hsrc)].
  - vm_compute in Hb. discriminate Hb.
  - assert (Hsse : sse (response_of (actions
                     (@exec demo _ (chat_stream (Some demo_query)) empty_index)))
                   = sse no_context_stream) by (vm_compute; reflexivity).
    rewrite Hsse in Hev. cbn in Hev.
    apply list_elem_of_singleton in Hev. subst ev. cbn in Hsrc. discriminate Hsrc.
Qed.

(* ===================================================================== *)
(** ** The grounding prompt *)
(* ===================================================================== *)

Lemma imap_chunk_label (k : nat) (hits : list search_result) :
  join (newline ++ newline) (imap (λ i, chunk_label (k + i)) hits)
  = ranked_from (k + 1) hits.
Proof.
  revert k. induction hits as [|h rest IH]; intros k; [done|].
  cbn [imap]. destruct rest as [|h' rest'].
  - cbn. unfold chunk_label, ranked_label. by rewrite Nat.add_0_r.
  - change (ranked_from (k + 1) (h :: h' :: rest'))
      with (ranked_label (k + 1) h ++ newline ++ newline ++ ranked_from (S (k + 1)) (h' :: rest')).
    specialize (IH (S k)).
    replace (S k + 1) with (S (k + 1)) in IH by lia.
    rewrite <- IH.
    replace (imap ((λ i, chunk_label (k + i)) ∘ S) (h' :: rest'))
      with (imap (λ i, chunk_label (S k + i)) (h' :: rest')).
    2:{ apply imap_ext. intros i x _. cbn. f_equal. lia. }
    cbn. unfold chunk_label at 1. unfold ranked_label.
    rewrite Nat.add_0_r, <- !app_assoc. done.
Qed.

(** The context the endpoints build is the specification's: the hits in
    the order of the search result, ranks counted from 1. *)
Lemma context_of_ranked (hits : list search_result) :
  context_of hits = ranked_from 1 hits.
Proof. unfold context_of. apply (imap_chunk_label 0). Qed.

Lemma chat_prompt (E : env) (query : option jstring) (w : world E)
    (hits : list search_result) :
  let b := exec (chat query) w in
  hits ≠ [] →
  omap search_answer_of (calls b) = [hits] →
  ∃ q, query = Some q ∧
       omap chat_request_in (calls b) =
         [chat_request_of (chat_preamble ++ context_of hits ++ chat_closing) q].
Proof.
  intros b Hne. subst b.
  unfold chat. destruct query as [[|c q]|]; try done.
  destruct (trim (c :: q)) as [|c' q'] eqn:Htrim; [done|].
  cbn. answer_next; [done|].
  destruct (values <$> embeddings a) as [|vec0 vs]; cbn; [done|].
  answer_next; [done|].
  destruct a0 as [|r0 rs]; cbn; [by intros [= <-]|].
  intros Hhits. exists (c :: q). split; [done|]. revert Hhits.
  answer_next; [by intros [= <-]|].
  destruct (source_entries_cases 0 (r0 :: rs)) as [(l & -> & _) | ->]; cbn;
    by intros [= <-].
Qed.

Lemma chat_stream_prompt (E : env) (query : option jstring) (w : world E)
    (hits : list search_result) :
  let s := exec (chat_stream query) w in
  hits ≠ [] →
  omap search_answer_of (calls s) = [hits] →
  ∃ q, query = Some q ∧
       omap chat_request_in (calls s) =
         [stream_request_of (stream_preamble ++ context_of hits) q].
Proof.
  intros s Hne. subst s.
  unfold chat_stream. destruct query as [[|c q]|]; try done.
  destruct (trim (c :: q)) as [|c' q'] eqn:Htrim; [done|].
  cbn. answer_next; [done|].
  destruct (values <$> embeddings a) as [|vec0 vs]; cbn; [done|].
  answer_next; [done|].
  destruct a0 as [|r0 rs]; cbn; [by intros [= <-]|].
  intros Hhits. exists (c :: q). split; [done|]. revert Hhits.
  answer_next; [by intros [= <-]|].
  stream_loop. destruct (stream_failure a0); cbn; by intros [= <-].
Qed.

(** C6.  When the vector search returns a non-empty list of hits, each
    endpoint calls the Generation Provider once, and the system message of
    that call is the endpoint's fixed preamble, then the hits in the order
    the search returned them, each under its 1-based rank label and
    separated by blank lines, then the endpoint's fixed closing text; the
    user message is the query. *)
Theorem grounding_context_in_search_order (E : env) (query : option jstring)
    (w : world E) (hits : list search_result) :
  let b := exec (chat query) w in
  let s := exec (chat_stream query) w in
  hits ≠ [] →
  (omap search_answer_of (calls b) = [hits] →
     ∃ q req, query = Some q ∧
       omap chat_request_in (calls b) = [req] ∧
       messages req =
         [ {| role := lit "system";
              content := chat_preamble ++ ranked_from 1 hits ++ chat_closing |};
           {| role := lit "user"; content := q |} ]) ∧
  (omap search_answer_of (calls s) = [hits] →
     ∃ q req, query = Some q ∧
       omap chat_request_in (calls s) = [req] ∧
       messages req =
         [ {| role := lit "system";
              content := stream_preamble ++ ranked_from 1 hits |};
           {| role := lit "user"; content := q |} ]).
Proof.
  intros b s Hne. split; intros Hhits.
  - destruct (chat_prompt E query w hits Hne Hhits) as (q & Hq & Hreq).
    exists q. eexists. split; [done|]. split; [exact Hreq|].
    by rewrite context_of_ranked.
  - destruct (chat_stream_prompt E query w hits Hne Hhits) as (q & Hq & Hreq).
    exists q. eexists. split; [done|]. split; [exact Hreq|].
    by rewrite context_of_ranked.
Qed.

Lemma grounding_context_in_search_order_witness :
  let b := @exec demo _ (chat (Some demo_query)) index_a in
  let s := @exec demo _ (chat_stream (Some demo_query)) index_a in
  demo_hits ≠ [] ∧
  omap search_answer_of (calls b) = [demo_hits] ∧
  omap search_answer_of (calls s) = [demo_hits] ∧
  (∃ q req, Some demo_query = Some q ∧
     omap chat_request_in (calls b) = [req] ∧
     messages req =
       [ {| role := lit "system";
            content := chat_preamble ++ ranked_from 1 demo_hits ++ chat_closing |};
         {| role := lit "user"; content := q |} ]) ∧
  (∃ q req, Some demo_query = Some q ∧
     omap chat_request_in (calls s) = [req] ∧
     messages req =
       [ {| role := lit "system";
            content := stream_preamble ++ ranked_from 1 demo_hits |};
         {| role := lit "user"; content := q |} ]).
Proof.
  assert (Hne : demo_hits ≠ []) by discriminate.
  assert (Hb : omap search_answer_of
                 (calls (@exec demo _ (chat (Some demo_query)) index_a)) = [demo_hits])
    by (vm_compute; reflexivity).
  assert (Hs : omap search_answer_of
                 (calls (@exec demo _ (chat_stream (Some demo_query)) index_a)) = [demo_hits])
    by (vm_compute; reflexivity).
  pose proof (grounding_context_in_search_order demo (Some demo_query) index_a
                demo_hits Hne) as [Tb Ts].
  split; [exact Hne|]. split; [exact Hb|]. split; [exact Hs|].
  split; [exact (Tb Hb) | exact (Ts Hs)].
Defined.

(* ===================================================================== *)
(** ** The sources of a batch answer *)
(* ===================================================================== *)

(** C9, as amended.  A batch query that ends with status 200 after a
    search with [n > 0] hits has the body [{ answer, sources }]; [sources]
    has one entry per hit, in the order of the hits; the entry of rank [i]
    (counted from 1) has [chunk_index] [i], [text] (the preview property is
    named [text]) the first 200 code units of the stored text followed by
    three dots, [score] the score of the hit, and [source] the stored
    source reference. *)
Theorem batch_sources_in_result_order (E : env) (query : option jstring)
    (w : world E) (hits : list search_result) :
  let b := exec (chat query) w in
  hits ≠ [] →
  omap search_answer_of (calls b) = [hits] →
  status (response_of (actions b)) = 200 →
  ∃ answer srcs,
    body (response_of (actions b))
      = Some (JObj [ ("answer", JStr answer); ("sources", JArr srcs) ]) ∧
    length srcs = length hits ∧
    ∀ i hit, hits !! i = Some hit →
      ∃ t, text (result_payload hit) = Some t ∧
           srcs !! i = Some (source_json (i + 1) hit t).
Proof.
  intros b Hne. subst b.
  unfold chat. destruct query as [[|c q]|]; try done.
  destruct (trim (c :: q)) as [|c' q'] eqn:Htrim; [done|].
  cbn. answer_next; [done|].
  destruct (values <$> embeddings a) as [|vec0 vs]; cbn; [done|].
  answer_next; [done|].
  destruct a0 as [|r0 rs]; cbn; [by intros [= <-]|].
  answer_next; [by intros [= <-]|].
  destruct (source_entries_cases 0 (r0 :: rs)) as [(l & -> & Hlen & Hent) | ->]; cbn.
  - intros [= <-] _. do 2 eexists. split; [reflexivity|]. split; [exact Hlen|].
    intros i hit Hi. destruct (Hent i hit Hi) as (t & Ht & Hl).
    exists t. split; [done|]. exact Hl.
  - intros _ H. by apply Nat.eqb_eq in H.
Qed.

Lemma batch_sources_in_result_order_witness :
  let b := @exec demo _ (chat (Some demo_query)) index_a in
  demo_hits ≠ [] ∧
  omap search_answer_of (calls b) = [demo_hits] ∧
  status (response_of (actions b)) = 200 ∧
  ∃ answer srcs,
    body (response_of (actions b))
      = Some (JObj [ ("answer", JStr answer); ("sources", JArr srcs) ]) ∧
    length srcs = length demo_hits ∧
    ∀ i hit, demo_hits !! i = Some hit →
      ∃ t, text (result_payload hit) = Some t ∧
           srcs !! i = Some (source_json (i + 1) hit t).
Proof.
  assert (Hne : demo_hits ≠ []) by discriminate.
  assert (Hb : omap search_answer_of
                 (calls (@exec demo _ (chat (Some demo_query)) index_a)) = [demo_hits])
    by (vm_compute; reflexivity).
  assert (Hok : status (response_of (actions
                   (@exec demo _ (chat (Some demo_query)) index_a))) = 200)
    by (vm_compute; reflexivity).
  split; [exact Hne|]. split; [exact Hb|]. split; [exact Hok|].
  exact (batch_sources_in_result_order demo (Some demo_query) index_a demo_hits Hne Hb Hok).
Defined.

(** C9 as stated fails on the name of the preview property: the entries
    of a successful answer have no property [text_preview]; the preview is
    under [text]. *)
Lemma batch_sources_without_text_preview :
  let b := @exec demo _ (chat (Some demo_query)) index_a in
  status (response_of (actions b)) = 200 ∧
  sources_of (response_of (actions b)) = [source_json 1 demo_hit_a demo_text_a] ∧
  field "text_preview" (source_json 1 demo_hit_a demo_text_a) = None ∧
  field "text" (source_json 1 demo_hit_a demo_text_a)
    = Some (JStr (take 200 demo_text_a ++ lit "...")).
Proof. repeat split; vm_compute; reflexivity. Qed.

(* ===================================================================== *)
(** ** Streaming against batch *)
(* ===================================================================== *)

Lemma source_entries_with_texts (idx : nat) (hits : list search_result) :
  Forall (λ h, is_Some (text (result_payload h))) hits →
  ∃ l, source_entries idx hits = Ret l.
Proof.
  intros H. revert idx. induction H as [|h hits [t Ht] _ IH]; intros idx.
  - by exists [].
  - unfold source_entries; fold source_entries. unfold source_entry. rewrite Ht.
    destruct (IH (S idx)) as [l ->]. by eexists.
Qed.

(** Dropping the empty contents does not change the text a stream adds up
    to. *)
Lemma concat_fragments (ds : list (option jstring)) :
  concat (fragments ds) = concat (default [] <$> ds).
Proof.
  unfold fragments. induction ds as [|d ds IH]; [done|].
  rewrite fmap_cons, filter_cons. destruct (default [] d) as [|c s] eqn:Hd.
  - rewrite decide_False by (intros H; by apply H). exact IH.
  - rewrite decide_True by done. rewrite !concat_cons. by rewrite IH.
Qed.

Lemma omap_fragment_of_content (l : list jstring) :
  omap fragment_of (content_event <$> l) = l.
Proof. induction l as [|s l IH]; cbn; [done | by rewrite IH]. Qed.

(** C8, as amended.  Take a query that passes validation, an embedding
    and a search that succeed with a non-empty list of hits that all carry
    a text, and a Generation Provider that answers the batch request with
    a non-empty text and the streaming request (whose system prompt and
    parameters are not the batch ones) with chunks that add up to the same
    text and no failure.  Then the fragments the streaming endpoint writes
    add up to the answer of the batch endpoint. *)
Theorem streamed_fragments_equal_batch_answer (E : env) (q : jstring)
    (w w1 w2 wb ws : world E) (a : embed_response) (vec0 : vector) (vs : list vector)
    (hits : list search_result) (t : jstring) (ds : list (option jstring)) :
  ¬ blank (Some q) →
  handle E (EmbedContent (lit "gemini-embedding-001") [q]) w = (inr a, w1) →
  values <$> embeddings a = vec0 :: vs →
  handle E (Search collectionName (search_request (Some vec0))) w1 = (inr hits, w2) →
  hits ≠ [] →
  Forall (λ h, is_Some (text (result_payload h))) hits →
  handle E (ChatCompletionsCreate
              (chat_request_of (chat_preamble ++ context_of hits ++ chat_closing) q)) w2
    = (inr {| first_content := Some t |}, wb) →
  handle E (ChatCompletionsCreate
              (stream_request_of (stream_preamble ++ context_of hits) q)) w2
    = (inr {| deltas := ds; stream_failure := None |}, ws) →
  concat (default [] <$> ds) = t →
  t ≠ [] →
  answer_of (response_of (actions (exec (chat (Some q)) w)))
  = Some (streamed_text (response_of (actions (exec (chat_stream (Some q)) w)))).
Proof.
  intros Hq Hembed Hvec Hsearch Hne Htexts Hbatch Hstream Hsum Ht.
  cbn in Hq. rewrite <- trim_nil in Hq.
  destruct q as [|c q]; [done|].
  destruct (trim (c :: q)) as [|c' q'] eqn:Htrim; [done|].
  destruct hits as [|h0 hits]; [done|].
  destruct (source_entries_with_texts 0 (h0 :: hits) Htexts) as [l Hl].
  assert (Hb : answer_of (response_of (actions (exec (chat (Some (c :: q))) w))) = Some t).
  { unfold chat. rewrite Htrim. cbn. rewrite Hembed. cbn. rewrite Hvec. cbn.
    rewrite Hsearch. cbn. rewrite Hbatch. cbn. rewrite Hl. cbn.
    destruct t; done. }
  rewrite Hb. f_equal.
  unfold chat_stream. rewrite Htrim. cbn. rewrite Hembed. cbn. rewrite Hvec. cbn.
  rewrite Hsearch. cbn. rewrite Hstream. cbn.
  stream_loop. unfold response_of, streamed_text.
  rewrite foldl_app, foldl_writes. cbn.
  rewrite omap_app, omap_fragment_of_content. cbn.
  by rewrite app_nil_r, concat_fragments.
Qed.

Lemma streamed_fragments_equal_batch_answer_witness :
  ¬ blank (Some demo_query) ∧
  answer_of (response_of (actions (@exec demo _ (chat (Some demo_query)) index_a)))
  = Some (streamed_text
            (response_of (actions (@exec demo _ (chat_stream (Some demo_query)) index_a)))).
Proof.
  assert (Hq : ¬ blank (Some demo_query)).
  { intros H. apply trim_nil in H. vm_compute in H. discriminate H. }
  split; [exact Hq|].
  apply (streamed_fragments_equal_batch_answer demo demo_query
           index_a index_a index_a index_a index_a
           {| embeddings := [demo_embedding demo_query] |}
           [float_one; float_zero] [] demo_hits demo_query
           (None :: ((λ c, Some [c]) <$> demo_query) ++ [None])).
  - exact Hq.
  - reflexivity.
  - reflexivity.
  - vm_compute; reflexivity.
  - discriminate.
  - repeat constructor; by eexists.
  - vm_compute; reflexivity.
  - vm_compute; reflexivity.
  - vm_compute; reflexivity.
  - vm_compute; discriminate.
Defined.

(** C8 as stated fails when the search finds nothing: the batch endpoint
    answers with its canned sentence, the streaming endpoint writes no
    fragment at all. *)
Lemma streamed_fragments_differ_on_empty_index :
  let b := @exec demo _ (chat (Some demo_query)) empty_index in
  let s := @exec demo _ (chat_stream (Some demo_query)) empty_index in
  answer_of (response_of (actions b)) = Some no_context_answer ∧
  streamed_text (response_of (actions s)) = [] ∧
  answer_of (response_of (actions b)) ≠ Some (streamed_text (response_of (actions s))).
Proof.
  repeat split; try (vm_compute; reflexivity).
  vm_compute. discriminate.
Qed.

(* ===================================================================== *)
(** ** The ingestion worker *)
(* ===================================================================== *)

Lemma points_lookup (data : job_data) (chunks : list jstring)
    (documentEmbeddings : list vector) (i : nat) (p : point) :
  points data chunks documentEmbeddings !! i = Some p →
  id p = i + 1 ∧
  Some (vector_of p) = documentEmbeddings !! i ∧
  text (point_payload p) = chunks !! i ∧
  chunk_index (point_payload p) = i ∧
  source (point_payload p) = path data.
Proof.
  unfold points. rewrite list_lookup_imap.
  destruct (documentEmbeddings !! i) as [vec|]; cbn; [|done].
  by intros [= <-].
Qed.

Lemma length_points (data : job_data) (chunks : list jstring)
    (documentEmbeddings : list vector) :
  length (points data chunks documentEmbeddings) = length documentEmbeddings.
Proof. unfold points. apply length_imap. Qed.

(** Within one batch the ids are the positions plus one, so no two
    positions share an id. *)
Lemma points_ids (data : job_data) (chunks : list jstring)
    (documentEmbeddings : list vector) :
  id <$> points data chunks documentEmbeddings = seq 1 (length documentEmbeddings).
Proof.
  apply list_eq. intros i. rewrite list_lookup_fmap.
  destruct (points data chunks documentEmbeddings !! i) as [p|] eqn:Hp; cbn.
  - destruct (points_lookup _ _ _ _ _ Hp) as (Hid & _).
    apply lookup_lt_Some in Hp. rewrite length_points in Hp.
    symmetry. rewrite Hid. apply lookup_seq. lia.
  - apply lookup_ge_None in Hp. rewrite length_points in Hp.
    symmetry. apply lookup_ge_None. by rewrite length_seq.
Qed.

Lemma worker_runs (E : env) (data : job_data) (w : world E) :
  let r := exec (worker data) w in
  (existsb embedding_failed (calls r) = true → existsb is_upsert (calls r) = false) ∧
  (existsb is_upsert (calls r) = false ∨ upserted_after_embeddings data r).
Proof.
  unfold worker, ensure_collection. cbn.
  answer_next; [by split; [|left]|].
  answer_next; [by split; [|left]|].
  answer_next; [by split; [|left]|].
  rewrite String_throws_VStr, String_VStr; cbn.
  answer_next; [by split; [|left]|].
  destruct (embeddings a2) as [|emb0 embs] eqn:Hembs; cbn; [by split; [|left]|].
  assert (Hne : embeddings a2 ≠ []) by (by rewrite Hembs).
  answer_next.
  - answer_next; [by split; [|left]|].
    answer_next; (split; [done|]); right;
      eexists [_; _; _; _; _; _], _, a1, a2; cbn; rewrite Hembs; by repeat split.
  - answer_next; (split; [done|]); right;
      eexists [_; _; _; _; _], _, a1, a2; cbn; rewrite Hembs; by repeat split.
Qed.

(** C7.  In a run of the worker, if the embedding step fails (the provider
    rejects the call, or answers without embeddings) no upsert is made;
    and a run either makes no upsert, or makes exactly one, as its last
    call, with [wait] set, for the points built from the embeddings of all
    the chunks, which the provider returned before. *)
Theorem upsert_only_after_all_embeddings (E : env) (data : job_data) (w : world E) :
  let r := exec (worker data) w in
  (existsb embedding_failed (calls r) = true → existsb is_upsert (calls r) = false) ∧
  (existsb is_upsert (calls r) = false ∨ upserted_after_embeddings data r).
Proof. apply worker_runs. Qed.

Lemma upsert_only_after_all_embeddings_witness :
  let r := @exec demo _ (worker job_empty) empty_index in
  existsb embedding_failed (calls r) = true ∧
  existsb is_upsert (calls r) = false.
Proof.
  assert (H : existsb embedding_failed
                (calls (@exec demo _ (worker job_empty) empty_index)) = true)
    by (vm_compute; reflexivity).
  split; [exact H|].
  exact (proj1 (upsert_only_after_all_embeddings demo job_empty empty_index) H).
Defined.

Lemma omap_upsert_of_none (l : list call) :
  existsb is_upsert l = false → omap upsert_of l = [].
Proof.
  induction l as [|c l IH]; [done|].
  cbn. unfold is_upsert at 1. destruct (upsert_of c); [done|]. exact IH.
Qed.

(** What a run of the worker upserts: nothing, or one batch. *)
Lemma worker_upserts (E : env) (data : job_data) (w : world E) :
  let r := exec (worker data) w in
  omap upsert_of (calls r) = [] ∨
  ∃ chunks response,
    omap upsert_of (calls r)
      = [(collectionName, true, points data chunks (values <$> embeddings response))] ∧
    omap split_answer_of (calls r) = [chunks].
Proof.
  cbv zeta. destruct (proj2 (worker_runs E data w)) as [Hno | Hup].
  - left. by apply omap_upsert_of_none.
  - right. destruct Hup as (before & answer & chunks & response & Hc & Hno & Hsplit & _).
    exists chunks, response. rewrite Hc, !omap_app, Hsplit.
    by rewrite (omap_upsert_of_none _ Hno).
Qed.

(** C1, as amended.  Within the batch one job upserts, a point id maps to
    one chunk: the point at position [i] has id [i + 1], the text of chunk
    [i], chunk index [i] and the job's document as source, and no two
    points of the batch share an id. *)
Theorem point_ids_unique_within_job (E : env) (data : job_data) (w : world E)
    (name : jstring) (wait : bool) (pts : list point) :
  let r := exec (worker data) w in
  (name, wait, pts) ∈ omap upsert_of (calls r) →
  NoDup (id <$> pts) ∧
  ∃ chunks,
    omap split_answer_of (calls r) = [chunks] ∧
    ∀ i p, pts !! i = Some p →
      id p = i + 1 ∧
      text (point_payload p) = chunks !! i ∧
      chunk_index (point_payload p) = i ∧
      source (point_payload p) = path data.
Proof.
  cbv zeta. intros Hin.
  destruct (worker_upserts E data w) as [Hno | (chunks & response & Hup & Hsplit)].
  - rewrite Hno in Hin. by apply elem_of_nil in Hin.
  - rewrite Hup in Hin. apply list_elem_of_singleton in Hin.
    injection Hin as -> -> ->. split.
    + rewrite points_ids. apply NoDup_seq.
    + exists chunks. split; [done|]. intros i p Hp.
      destruct (points_lookup _ _ _ _ _ Hp) as (? & _ & ? & ? & ?). done.
Qed.

Lemma point_ids_unique_within_job_witness :
  let r := @exec demo _ (worker job_a) ∅ in
  (collectionName, true, [point_a]) ∈ omap upsert_of (calls r) ∧
  NoDup (id <$> [point_a]) ∧
  ∃ chunks,
    omap split_answer_of (calls r) = [chunks] ∧
    ∀ i p, [point_a] !! i = Some p →
      id p = i + 1 ∧
      text (point_payload p) = chunks !! i ∧
      chunk_index (point_payload p) = i ∧
      source (point_payload p) = path job_a.
Proof.
  assert (H : (collectionName, true, [point_a])
              ∈ omap upsert_of (calls (@exec demo _ (worker job_a) ∅))).
  { assert (Hup : omap upsert_of (calls (@exec demo _ (worker job_a) ∅))
                  = [(collectionName, true, [point_a])]) by (vm_compute; reflexivity).
    rewrite Hup. apply list_elem_of_here. }
  split; [exact H|].
  exact (point_ids_unique_within_job demo job_a ∅ _ _ _ H).
Defined.

(** C1 as stated fails across jobs: the jobs for two documents, run one
    after the other on the same index, both upsert under id 1; the chunks
    differ, and afterwards the collection holds the second one only. *)
Lemma point_id_shared_across_jobs :
  let ra := @exec demo _ (worker job_a) ∅ in
  let rb := @exec demo _ (worker job_b) (final ra) in
  omap upsert_of (calls ra) = [(collectionName, true, [point_a])] ∧
  omap upsert_of (calls rb) = [(collectionName, true, [point_b])] ∧
  id point_a = id point_b ∧
  text (point_payload point_a) ≠ text (point_payload point_b) ∧
  stored_points (final ra) = [(1, point_a)] ∧
  stored_points (final rb) = [(1, point_b)].
Proof.
  repeat split; try (vm_compute; reflexivity).
  vm_compute. discriminate.
Qed.

(* ===================================================================== *)
(** ** Ensuring the collection *)
(* ===================================================================== *)

(** Running a handler to its end is running it after one of its steps. *)
Lemma exec_step {E : env} {A} (p : prog A) (w : world E) :
  result (exec p w) = result (exec (step p w).1 (step p w).2) ∧
  final (exec p w) = final (exec (step p w).1 (step p w).2).
Proof.
  destruct p as [a|e|R ev k|act k]; cbn; try done.
  by destruct (handle E ev w) as [r w'].
Qed.

(** When [getCollection] finds the collection, the block is done: nothing
    is created and nothing is thrown. *)
Lemma ensure_collection_present (E : env) (documentEmbeddings : list vector)
    (w w' : world E) :
  handle E (GetCollection collectionName) w = (inr tt, w') →
  exec (ensure_collection documentEmbeddings) w =
  {| result := Returned tt; final := w';
     calls := [Call (GetCollection collectionName) (inr tt)]; actions := [] |}.
Proof. intros H. unfold ensure_collection. cbn. by rewrite H. Qed.

(** When it does not, the block creates the collection, and an error of
    [createCollection] leaves the block. *)
Lemma ensure_collection_absent (E : env) (vec0 : vector) (vs : list vector)
    (w w' : world E) (e : error) :
  handle E (GetCollection collectionName) w = (inl e, w') →
  let create := CreateCollection collectionName
                  {| size := length vec0; distance := lit "Cosine" |} in
  exec (ensure_collection (vec0 :: vs)) w =
  {| result := match (handle E create w').1 with
               | inl e' => Thrown e'
               | inr _ => Returned tt
               end;
     final := (handle E create w').2;
     calls := [Call (GetCollection collectionName) (inl e);
               Call create (handle E create w').1];
     actions := [] |}.
Proof.
  intros H. unfold ensure_collection. cbn. rewrite H. cbn.
  destruct (handle E _ w') as [[e'|[]] w'']; done.
Qed.

(** Two jobs run one after the other on an index without the collection:
    the first creates it, the second finds it, both succeed. *)
Lemma sequential_jobs_succeed :
  let ra := @exec demo _ (worker job_a) ∅ in
  let rb := @exec demo _ (worker job_b) (final ra) in
  result ra = Returned {| success := true; chunks := 1 |} ∧
  result rb = Returned {| success := true; chunks := 1 |} ∧
  base.size (final rb) = 1.
Proof. repeat split; vm_compute; reflexivity. Qed.

(** C2.  The race the claim speaks of, run on the code: two jobs start on
    an index without the collection and both see it missing before either
    creates it.  One collection is created, but the second job's
    [createCollection] is rejected and that error leaves the job: the job
    fails, and its document is not indexed. *)
Theorem racing_jobs_second_create_fails :
  let '(p1, p2, w) := @interleave demo _ racing_schedule (worker job_a) (worker job_b) ∅ in
  finished p1 = Some (Returned {| success := true; chunks := 1 |}) ∧
  finished p2 = Some (Thrown (Error (lit "Conflict: collection already exists"))) ∧
  base.size w = 1 ∧
  stored_points w = [(1, point_a)].
Proof. vm_compute. repeat split; reflexivity. Qed.

(* ===================================================================== *)
(** ** The chunker *)
(* ===================================================================== *)

Section Chunker.
Variables chunkSize chunkOverlap : nat.
Hypothesis overlap_lt_size : chunkOverlap < chunkSize.

Local Abbreviation stride := (chunkSize - chunkOverlap).

Lemma ceil_div_one (n : nat) : 0 < n → n ≤ stride → ceil_div n stride = 1.
Proof.
  intros Hn Hle. unfold ceil_div. symmetry.
  apply (Nat.div_unique _ _ _ (n - 1)); lia.
Qed.

Lemma ceil_div_step (n : nat) :
  0 < n → ceil_div (n + stride) stride = S (ceil_div n stride).
Proof.
  intros Hn. unfold ceil_div.
  replace (n + stride + stride - 1) with (n + stride - 1 + 1 * stride) by lia.
  rewrite Nat.div_add by lia. lia.
Qed.

(** A text longer than the overlap gives [ceil((len - O) / (S - O))]
    chunks. *)
Lemma length_windows (fuel : nat) (t : jstring) :
  length t ≤ fuel → chunkOverlap < length t →
  length (windows fuel chunkSize chunkOverlap t)
  = ceil_div (length t - chunkOverlap) stride.
Proof.
  revert t. induction fuel as [|fuel IH]; intros t Hfuel Hlong; [lia|].
  destruct t as [|c t]; [cbn in Hlong; lia|].
  cbn [windows]. destruct (Nat.leb_spec (length (c :: t)) chunkSize) as [Hle | Hgt].
  - cbn [length] in *. rewrite ceil_div_one; [done | lia | lia].
  - cbn [length]. rewrite IH; rewrite ?length_drop; cbn [length] in *.
    + replace (S (length t) - chunkOverlap)
        with (S (length t) - stride - chunkOverlap + stride) by (lia).
      rewrite ceil_div_step; [done | lia].
    + lia.
    + lia.
Qed.

(** The chunk at position [i] is the window that starts [i] strides into
    the text; when another chunk follows, the text goes on beyond the
    window. *)
Lemma lookup_windows (fuel : nat) (t : jstring) (i : nat) (c : jstring) :
  length t ≤ fuel →
  windows fuel chunkSize chunkOverlap t !! i = Some c →
  c = take chunkSize (drop (i * stride) t) ∧
  (is_Some (windows fuel chunkSize chunkOverlap t !! (i + 1)) →
   chunkSize < length (drop (i * stride) t)).
Proof.
  revert t i. induction fuel as [|fuel IH]; intros t i Hfuel Hc; [done|].
  destruct t as [|x t]; [done|].
  cbn [windows] in *.
  destruct (Nat.leb_spec (length (x :: t)) chunkSize) as [Hle | Hgt].
  - destruct i as [|i]; [|done]. injection Hc as <-. split.
    + by rewrite take_ge.
    + cbn. by intros [? ?].
  - destruct i as [|i].
    + injection Hc as <-. by split.
    + cbn in Hc. apply IH in Hc.
      2:{ rewrite length_drop. cbn [length] in *. lia. }
      rewrite drop_drop in Hc.
      replace (S i * stride) with (stride + i * stride) by lia.
      destruct Hc as [-> Hnext]. split; [done|]. exact Hnext.
Qed.

(** Consecutive windows share [chunkOverlap] code units. *)
Lemma windows_overlap (t : jstring) (i : nat) :
  chunkSize < length (drop (i * stride) t) →
  drop stride (take chunkSize (drop (i * stride) t))
  = take chunkOverlap (take chunkSize (drop ((i + 1) * stride) t)) ∧
  length (drop stride (take chunkSize (drop (i * stride) t))) = chunkOverlap.
Proof.
  intros Hlong. split.
  - rewrite take_take, Nat.min_l by lia.
    replace ((i + 1) * stride) with (i * stride + stride) by lia.
    rewrite <- drop_drop.
    rewrite (take_drop_commute (drop (i * stride) t) chunkOverlap stride).
    by replace (stride + chunkOverlap) with chunkSize by lia.
  - rewrite length_drop, length_take. lia.
Qed.
End Chunker.

(** C5.  With chunk size 1000 and overlap 100, the chunker of the
    specification gives no chunk for the empty text, the text itself as the
    one chunk when it has at most 1000 code units, and
    [ceil((len - 100) / 900)] chunks when it has more; every chunk but the
    last has 1000 code units, and the last 100 code units of a chunk are
    the first 100 of the next. *)
Theorem chunker_count_and_overlap (t : jstring) :
  let cs := splitText 1000 100 t in
  (t = [] ∧ cs = []
   ∨ 0 < length t ≤ 1000 ∧ cs = [t]
   ∨ 1000 < length t ∧ length cs = ceil_div (length t - 100) (1000 - 100)) ∧
  (∀ i c d, cs !! i = Some c → cs !! (i + 1) = Some d →
     length c = 1000 ∧
     drop 900 c = take 100 d ∧
     length (take 100 d) = 100).
Proof.
  cbv zeta. unfold splitText. split.
  - destruct t as [|x t]; [by left | right].
    destruct (Nat.leb_spec (length (x :: t)) 1000) as [Hle | Hgt].
    + left. split; [cbn [length] in *; lia|].
      cbn [length windows]. cbn [length] in Hle.
      destruct (Nat.leb_spec (S (length t)) 1000); [done | lia].
    + right. split; [done|]. apply length_windows; lia.
  - intros i c d Hc Hd.
    assert (Hlt : 100 < 1000) by lia.
    pose proof (lookup_windows 1000 100 Hlt (length t) t i c (le_n _) Hc) as [-> Hnext].
    pose proof (lookup_windows 1000 100 Hlt (length t) t (i + 1) d (le_n _) Hd) as [-> _].
    specialize (Hnext (ex_intro _ _ Hd)).
    destruct (windows_overlap 1000 100 Hlt t i Hnext) as [Hov Hlen].
    change (1000 - 100) with 900 in *.
    split; [rewrite length_take; lia|].
    split; [exact Hov|]. by rewrite <- Hov.
Qed.

Lemma chunker_count_and_overlap_witness :
  let t := replicate 1001 97%N in
  let cs := splitText 1000 100 t in
  cs !! 0 = Some (replicate 1000 97%N) ∧
  cs !! (0 + 1) = Some (replicate 101 97%N) ∧
  length (replicate 1000 97%N) = 1000 ∧
  drop 900 (replicate 1000 97%N) = take 100 (replicate 101 97%N) ∧
  length (take 100 (replicate 101 97%N)) = 100.
Proof.
  assert (H0 : splitText 1000 100 (replicate 1001 97%N) !! 0
               = Some (replicate 1000 97%N)) by (vm_compute; reflexivity).
  assert (H1 : splitText 1000 100 (replicate 1001 97%N) !! (0 + 1)
               = Some (replicate 101 97%N)) by (vm_compute; reflexivity).
  split; [exact H0|]. split; [exact H1|].
  exact (proj2 (chunker_count_and_overlap (replicate 1001 97%N)) 0 _ _ H0 H1).
Defined.

(** The 3000 character document of the specification's scenario A gives 4
    chunks, of 1000, 1000, 1000 and 300 code units. *)
Example chunker_scenario_a :
  length <$> splitText 1000 100 (replicate 3000 97%N) = [1000; 1000; 1000; 300].
Proof. vm_compute. reflexivity. Qed.

(* ===================================================================== *)
(** ** The batch endpoint: every request is answered *)
(* ===================================================================== *)

(** The batch handler never throws and answers every request with exactly
    one JSON body: alone (status 200), or after setting status 400 or
    500.  Nothing is streamed. *)
Theorem chat_answers_once (E : env) (query : option jstring) (w : world E) :
  let b := exec (chat query) w in
  result b = Returned tt ∧
  ∃ body, actions b = [Json body]
        ∨ actions b = [Status 400; Json body]
        ∨ actions b = [Status 500; Json body].
Proof.
  unfold chat. destruct query as [[|c q]|];
    try (split; [done | eexists; right; left; reflexivity]).
  destruct (trim (c :: q)) as [|c' q'] eqn:Htrim;
    [split; [done | eexists; right; left; reflexivity]|].
  cbn. answer_next; [split; [done | eexists; right; right; reflexivity]|].
  destruct (values <$> embeddings a) as [|vec0 vs]; cbn;
    [split; [done | eexists; right; right; reflexivity]|].
  answer_next; [split; [done | eexists; right; right; reflexivity]|].
  destruct a0 as [|r0 rs]; cbn; [split; [done | eexists; left; reflexivity]|].
  answer_next; [split; [done | eexists; right; right; reflexivity]|].
  destruct (source_entries_cases 0 (r0 :: rs)) as [(l & -> & _) | ->]; cbn.
  - split; [done | eexists; left; reflexivity].
  - split; [done | eexists; right; right; reflexivity].
Qed.

(** When an outside call of the batch endpoint is rejected, it is the last
    call of the request, and the response is status 500 with the fixed
    error text and the message of that rejection as [details]. *)
Theorem chat_failure_surfaces_cause (E : env) (query : option jstring)
    (w : world E) (e : error) (es : list error) :
  let b := exec (chat query) w in
  omap call_error (calls b) = e :: es →
  es = [] ∧
  (last (calls b) ≫= call_error) = Some e ∧
  actions b = [Status 500; Json (chat_failure_body e)].
Proof.
  unfold chat. destruct query as [[|c q]|]; try done.
  destruct (trim (c :: q)) as [|c' q'] eqn:Htrim; [done|].
  cbn. answer_next; [by intros [= <- <-]|].
  destruct (values <$> embeddings a) as [|vec0 vs]; cbn; [done|].
  answer_next; [by intros [= <- <-]|].
  destruct a0 as [|r0 rs]; cbn; [done|].
  answer_next; [by intros [= <- <-]|].
  destruct (source_entries_cases 0 (r0 :: rs)) as [(l & -> & _) | ->]; cbn; done.
Qed.


Ltac calls_leaf :=
  first
    [ left; reflexivity
    | right; do 2 eexists; split; [reflexivity|]; cbv zeta;
      first
        [ left; reflexivity
        | right; do 3 eexists; split; [reflexivity|]; split; [eassumption|];
          first [ left; reflexivity | right; do 2 eexists; reflexivity ] ] ].

(** Both query endpoints make at most three outside calls per request, one
    per service and in this order: the embedding of the query alone, the
    search with the first embedding returned (top 5, with payload), and
    one request to the Generation Provider. *)
Theorem query_calls_in_order (E : env) (query : option jstring) (w : world E) :
  query_calls query (calls (exec (chat query) w)) ∧
  query_calls query (calls (exec (chat_stream query) w)).
Proof.
  unfold query_calls, chat, chat_stream. destruct query as [[|c q]|]; try (split; by left).
  destruct (trim (c :: q)) as [|c' q'] eqn:Htrim; [split; by left|].
  split.
  - cbn. answer_next; [calls_leaf|].
    destruct (values <$> embeddings a) as [|vec0 vs] eqn:Hvec; cbn; [calls_leaf|].
    assert (Hhead : head (values <$> embeddings a) = Some vec0) by (by rewrite Hvec).
    answer_next; [calls_leaf|].
    destruct a0 as [|r0 rs]; cbn; [calls_leaf|].
    answer_next; [calls_leaf|].
    destruct (source_entries_cases 0 (r0 :: rs)) as [(l & -> & _) | ->]; cbn; calls_leaf.
  - cbn. answer_next; [calls_leaf|].
    destruct (values <$> embeddings a) as [|vec0 vs] eqn:Hvec; cbn; [calls_leaf|].
    assert (Hhead : head (values <$> embeddings a) = Some vec0) by (by rewrite Hvec).
    answer_next; [calls_leaf|].
    destruct a0 as [|r0 rs]; cbn; [calls_leaf|].
    answer_next; [calls_leaf|].
    stream_loop. destruct (stream_failure a0); cbn; calls_leaf.
Qed.

(* ===================================================================== *)
(** ** The streaming endpoint: every stream is closed *)
(* ===================================================================== *)

Lemma fragments_nonempty (ds : list (option jstring)) :
  Forall (λ s, s ≠ []) (fragments ds).
Proof. unfold fragments. apply Forall_forall. intros s Hs. by apply list_elem_of_filter in Hs as [? _]. Qed.

Ltac stream_leaf contents :=
  split; [reflexivity|]; split; [reflexivity|]; split; [reflexivity|];
  split; [reflexivity|]; split; [reflexivity|];
  exists contents; eexists; split; [reflexivity|]; split; [reflexivity | try constructor].

(** A query that passes validation always gets a stream that is opened
    with status 200 and the event-stream headers, carries content events
    with non-empty contents only, and is closed by exactly one last event
    with a [done] or an [error] property; the handler never throws, so
    every failure after validation is reported inside the stream. *)
Theorem stream_always_closed (E : env) (query : option jstring) (w : world E) :
  let s := exec (chat_stream query) w in
  ¬ blank query →
  result s = Returned tt ∧
  status (response_of (actions s)) = 200 ∧
  headers (response_of (actions s)) = sse_headers ∧
  body (response_of (actions s)) = None ∧
  ended (response_of (actions s)) = true ∧
  ∃ contents closing,
    sse (response_of (actions s)) = (content_event <$> contents) ++ [closing] ∧
    is_terminal closing = true ∧
    Forall (λ c, c ≠ []) contents.
Proof.
  cbv zeta. intros Hq. destruct query as [q|]; [|by destruct Hq].
  cbn in Hq. rewrite <- trim_nil in Hq.
  unfold chat_stream. destruct q as [|c q]; [done|].
  destruct (trim (c :: q)) as [|c' q'] eqn:Htrim; [done|].
  cbn. answer_next; [stream_leaf (@nil jstring)|].
  destruct (values <$> embeddings a) as [|vec0 vs]; cbn; [stream_leaf (@nil jstring)|].
  answer_next; [stream_leaf (@nil jstring)|].
  destruct a0 as [|r0 rs]; cbn; [stream_leaf (@nil jstring)|].
  answer_next; [stream_leaf (@nil jstring)|].
  stream_loop. unfold response_of.
  destruct (stream_failure a0); cbn; rewrite foldl_app, foldl_writes; cbn;
    (split; [reflexivity|]); (split; [reflexivity|]); (split; [reflexivity|]);
    (split; [reflexivity|]); (split; [reflexivity|]);
    exists (fragments (deltas a0)); eexists;
    (split; [reflexivity|]); (split; [reflexivity | apply fragments_nonempty]).
Qed.

(** Once the Generation Provider has answered a streaming request with a
    chunk stream, the events written are the non-empty contents of its
    chunks, in arrival order, followed by one closing event: the end
    marker, or, when the chunk stream ends with a failure, that failure's
    message, after the fragments that came before it. *)
Theorem stream_forwards_in_arrival_order (E : env) (query : option jstring)
    (w : world E) (cs : chunk_stream) :
  let s := exec (chat_stream query) w in
  omap stream_answer_of (calls s) = [cs] →
  sse (response_of (actions s))
  = (content_event <$> fragments (deltas cs)) ++ [closing_event cs].
Proof.
  unfold chat_stream. destruct query as [[|c q]|]; try done.
  destruct (trim (c :: q)) as [|c' q'] eqn:Htrim; [done|].
  cbn. answer_next; [done|].
  destruct (values <$> embeddings a) as [|vec0 vs]; cbn; [done|].
  answer_next; [done|].
  destruct a0 as [|r0 rs]; cbn; [done|].
  answer_next; [done|].
  stream_loop. unfold response_of, closing_event.
  destruct (stream_failure a0) eqn:Hfail; cbn; intros [= <-];
    rewrite foldl_app, foldl_writes, Hfail; reflexivity.
Qed.

(* ===================================================================== *)
(** ** The ingestion worker: what a job reports *)
(* ===================================================================== *)

(** A job that returns reports [success: true] and, as [chunks], the
    number of chunks the splitter returned.  Its last call is the upsert,
    which was accepted; the number of points in it is the number of
    embeddings the provider returned, which the worker does not compare
    with the number of chunks. *)
Theorem worker_success_report (E : env) (data : job_data) (w : world E)
    (report : job_result) :
  let r := exec (worker data) w in
  result r = Returned report →
  ∃ before chunks response,
    report = {| success := true; chunks := length chunks |} ∧
    calls r = before ++
      [Call (Upsert collectionName true
               (points data chunks (values <$> embeddings response))) (inr tt)] ∧
    omap split_answer_of before = [chunks] ∧
    omap embed_answer_of before = [(chunks, inr response)] ∧
    length (points data chunks (values <$> embeddings response))
      = length (embeddings response).
Proof.
  unfold worker, ensure_collection. cbn.
  answer_next; [done|].
  answer_next; [done|].
  answer_next; [done|].
  rewrite String_throws_VStr, String_VStr; cbn.
  answer_next; [done|].
  destruct (embeddings a2) as [|emb0 embs] eqn:Hembs; cbn; [done|].
  answer_next.
  - answer_next; [done|].
    answer_next; [done|]. intros [= <-]. destruct a4.
    eexists [_; _; _; _; _; _], a1, a2. rewrite length_points, length_fmap, Hembs.
    by repeat split.
  - answer_next; [done|]. intros [= <-]. destruct a3, a4.
    eexists [_; _; _; _; _], a1, a2. rewrite length_points, length_fmap, Hembs.
    by repeat split.
Qed.

(** A job that throws, throws the rejection of its last call, unchanged,
    or the [TypeError] of reading the first embedding when the provider
    returned none.  A rejection of [getCollection] is never what a job
    throws for: it leads to the creation of the collection. *)
Theorem worker_failure_propagated (E : env) (data : job_data) (w : world E)
    (e : error) :
  let r := exec (worker data) w in
  result r = Thrown e →
  (last (calls r) ≫= call_error) = Some e ∧
    get_collection_failed <$> last (calls r) = Some false
  ∨ e = TypeError (lit "Cannot read properties of undefined (reading 'length')") ∧
    existsb embedding_failed (calls r) = true ∧
    (last (calls r) ≫= call_error) = None.
Proof.
  unfold worker, ensure_collection. cbn.
  answer_next; [intros [= <-]; by left|].
  answer_next; [intros [= <-]; by left|].
  answer_next; [intros [= <-]; by left|].
  rewrite String_throws_VStr, String_VStr; cbn.
  answer_next; [intros [= <-]; by left|].
  destruct (embeddings a2) as [|emb0 embs] eqn:Hembs; cbn.
  { intros [= <-]. by right. }
  answer_next.
  - answer_next; [intros [= <-]; by left|].
    answer_next; [intros [= <-]; by left | done].
  - answer_next; [intros [= <-]; by left | done].
Qed.

(** The worker creates the collection exactly when [getCollection] was
    rejected, whatever the rejection was, and then with the length of the
    first embedding as vector size and cosine distance. *)
Theorem worker_creates_after_failed_get (E : env) (data : job_data) (w : world E) :
  let r := exec (worker data) w in
  existsb get_collection_failed (calls r) = false ∧
    omap create_request_in (calls r) = []
  ∨ existsb get_collection_failed (calls r) = true ∧
    ∃ chunks response emb0,
      omap embed_answer_of (calls r) = [(chunks, inr response)] ∧
      head (embeddings response) = Some emb0 ∧
      omap create_request_in (calls r)
        = [(collectionName, {| size := length (values emb0); distance := lit "Cosine" |})].
Proof.
  unfold worker, ensure_collection. cbn.
  answer_next; [by left|].
  answer_next; [by left|].
  answer_next; [by left|].
  rewrite String_throws_VStr, String_VStr; cbn.
  answer_next; [by left|].
  destruct (embeddings a2) as [|emb0 embs] eqn:Hembs; cbn; [by left|].
  answer_next.
  - right. split; [done|]. exists a1, a2, emb0. rewrite Hembs.
    answer_next; [done|]. by answer_next.
  - left. by answer_next.
Qed.

(* ===================================================================== *)
(** ** More on the embedding adapter and on the previews *)
(* ===================================================================== *)

(** When the adapter returns, it returns at least one vector: the values
    of the embeddings of the provider's answer, in order and as many as
    the provider sent, whatever the number of documents was. *)
Theorem embeddingModel_returns_what_provider_sent (E : env) (docs : jsval)
    (w : world E) (vs : list vector) :
  let r := exec (embeddingModel docs) w in
  result r = Returned vs →
  vs ≠ [] ∧
  ∃ items response,
    docs = VArr items ∧
    calls r = [Call (EmbedContent (lit "gemini-embedding-001") (String_ <$> items))
                 (inr response)] ∧
    vs = values <$> embeddings response.
Proof.
  cbv zeta. destruct docs as [| |b|n safe|s|items|fields]; try done.
  destruct (existsb String_throws items) eqn:Hthrows;
    [by rewrite (embeddingModel_coercion_throws E items w Hthrows)|].
  destruct (embeddingModel_array E items w Hthrows) as (Hc & Hr & _). cbv zeta in Hc, Hr.
  rewrite Hc, Hr. destruct (handle E _ w).1 as [e|response]; cbn; [done|].
  destruct (values <$> embeddings response) as [|v vs'] eqn:Hv; [done|].
  intros [= <-]. split; [done|]. by exists items, response.
Qed.

Lemma preview_shape (t : jstring) :
  length (substring0 200 t ++ lit "...") ≤ 203 ∧
  drop (length (substring0 200 t ++ lit "...") - 3) (substring0 200 t ++ lit "...")
    = lit "..." ∧
  (length t ≤ 200 → substring0 200 t ++ lit "..." = t ++ lit "...").
Proof.
  unfold substring0. rewrite length_app.
  change (length (lit "...")) with 3.
  assert (Hp : length (take 200 t) ≤ 200) by (rewrite length_take; lia).
  split; [lia|]. split.
  - replace (length (take 200 t) + 3 - 3) with (length (take 200 t)) by lia.
    by rewrite drop_app_length.
  - intros Hle. by rewrite take_ge.
Qed.

(** In a batch answer with status 200 every source entry has a [text] of
    at most 203 code units that ends with three dots; the dots are there
    also when the stored text is short and nothing was cut. *)
Theorem chat_previews_bounded (E : env) (query : option jstring) (w : world E) :
  let b := exec (chat query) w in
  status (response_of (actions b)) = 200 →
  Forall (λ entry, ∃ p, preview_of entry = Some p ∧
                        length p ≤ 203 ∧
                        drop (length p - 3) p = lit "...")
         (sources_of (response_of (actions b))).
Proof.
  unfold chat.
  assert (H400 : 400 ≠ 200) by (intros H; by apply Nat.eqb_eq in H).
  assert (H500 : 500 ≠ 200) by (intros H; by apply Nat.eqb_eq in H).
  destruct query as [[|c q]|]; try done.
  destruct (trim (c :: q)) as [|c' q'] eqn:Htrim; [done|].
  cbn. answer_next; [done|].
  destruct (values <$> embeddings a) as [|vec0 vs]; cbn; [done|].
  answer_next; [done|].
  destruct a0 as [|r0 rs]; cbn; [intros _; constructor|].
  answer_next; [done|].
  destruct (source_entries_cases 0 (r0 :: rs)) as [(l & -> & Hlen & Hent) | ->]; cbn;
    [|done].
  intros _. apply Forall_lookup. intros j entry Hj.
  destruct (lookup_lt_is_Some_2 (r0 :: rs) j) as [hit Hhit].
  { rewrite <- Hlen. by apply lookup_lt_Some in Hj. }
  destruct (Hent j hit Hhit) as (t & _ & Hl). rewrite Hl in Hj. injection Hj as <-.
  exists (substring0 200 t ++ lit "..."). split; [done|].
  destruct (preview_shape t) as (? & ? & _). done.
Qed.

(* ===================================================================== *)
(** ** Cleaning the uploads directory *)
(* ===================================================================== *)

Lemma is_old_iff (now : Q) (stats : dir_entry) :
  is_old now stats = true ↔ (oneHour < now - mtimeMs stats)%Q.
Proof.
  unfold is_old. rewrite negb_true_iff. split.
  - intros H. apply Qnot_le_lt. intros Hle. apply Qle_bool_iff in Hle. congruence.
  - intros H. destruct (Qle_bool _ _) eqn:Hb; [|done].
    apply Qle_bool_iff in Hb. by apply Qlt_not_le in H.
Qed.

Lemma statSync_app (file : jstring) (before after : directory) (entry : dir_entry) :
  file ∉ before.*1 →
  statSync file (before ++ (file, entry) :: after) = inr entry.
Proof.
  induction before as [|[n e] before IH]; cbn; intros Hnot.
  - by rewrite decide_True.
  - apply not_elem_of_cons in Hnot as [Hne Hnot].
    rewrite decide_False by done. by apply IH.
Qed.

Lemma unlinkSync_app (file : jstring) (before after : directory) (entry : dir_entry) :
  file ∉ before.*1 →
  unlinkSync file (before ++ (file, entry) :: after)
  = if is_directory entry then inl EISDIR else inr (before ++ after).
Proof.
  induction before as [|[n e] before IH]; cbn; intros Hnot.
  - by rewrite decide_True.
  - apply not_elem_of_cons in Hnot as [Hne Hnot].
    rewrite decide_False by done. rewrite IH by done.
    by destruct (is_directory entry).
Qed.

Lemma kept_cons (now : Q) (ne : jstring * dir_entry) (d : directory) :
  kept now (ne :: d) = if is_old now ne.2 then kept now d else ne :: kept now d.
Proof.
  unfold kept. rewrite filter_cons.
  destruct (is_old now ne.2); [by rewrite decide_False | by rewrite decide_True].
Qed.

Lemma swept_cons (now : Q) (ne : jstring * dir_entry) (d : directory) :
  swept now (ne :: d) = if is_old now ne.2 then ne.1 :: swept now d else swept now d.
Proof.
  unfold swept. rewrite filter_cons.
  destruct (is_old now ne.2); [by rewrite decide_True | by rewrite decide_False].
Qed.

(** The sweep, with [before] the entries already passed and kept: when it
    meets no old directory it passes over all the entries. *)
Lemma sweep_passes (now : Q) (before rest : directory) (acc : list jstring) :
  NoDup ((before ++ rest).*1) →
  old_are_files now rest →
  sweep now (rest.*1) (before ++ rest) acc
  = (before ++ kept now rest, acc ++ swept now rest, None).
Proof.
  revert before acc. induction rest as [|[n e] rest IH]; intros before acc Hnd Hfiles.
  - cbn. by rewrite !app_nil_r.
  - assert (Hnot : n ∉ before.*1).
    { rewrite fmap_app in Hnd. apply NoDup_app in Hnd as (_ & Hdisj & _).
      intros Hin. apply (Hdisj n Hin). cbn. left. }
    apply Forall_cons in Hfiles as [Hfile Hfiles].
    cbn [fmap list_fmap fst sweep]. rewrite statSync_app by done.
    rewrite kept_cons, swept_cons. cbn [fst snd] in *.
    destruct (is_old now e) eqn:Hold.
    + rewrite unlinkSync_app by done. rewrite (Hfile eq_refl).
      rewrite IH; [by rewrite <- app_assoc | | done].
      rewrite fmap_app in Hnd |- *. apply NoDup_app in Hnd as (Hb & Hdisj & Hr).
      apply NoDup_app. split; [done|]. split.
      * intros x Hx Hx'. apply (Hdisj x Hx). by right.
      * by apply NoDup_cons in Hr as [_ ?].
    + replace (before ++ (n, e) :: rest) with ((before ++ [(n, e)]) ++ rest)
        by (by rewrite <- app_assoc).
      rewrite IH; [by rewrite <- app_assoc | | done].
      by rewrite <- app_assoc.
Qed.

(** ... and when it meets one, it stops there. *)
Lemma sweep_blocked (now : Q) (before passed after : directory) (acc : list jstring)
    (name : jstring) (entry : dir_entry) :
  NoDup ((before ++ passed ++ (name, entry) :: after).*1) →
  old_are_files now passed →
  is_old now entry = true →
  is_directory entry = true →
  sweep now ((passed ++ (name, entry) :: after).*1)
        (before ++ passed ++ (name, entry) :: after) acc
  = (before ++ kept now passed ++ (name, entry) :: after, acc ++ swept now passed,
     Some EISDIR).
Proof.
  revert before acc. induction passed as [|[n e] passed IH];
    intros before acc Hnd Hfiles Hold Hdir.
  - assert (Hnot : name ∉ before.*1).
    { rewrite fmap_app in Hnd. apply NoDup_app in Hnd as (_ & Hdisj & _).
      intros Hin. apply (Hdisj name Hin). cbn. left. }
    cbn [app fmap list_fmap fst sweep]. rewrite statSync_app by done.
    rewrite Hold, unlinkSync_app by done. rewrite Hdir. by rewrite app_nil_r.
  - assert (Hnot : n ∉ before.*1).
    { rewrite fmap_app in Hnd. apply NoDup_app in Hnd as (_ & Hdisj & _).
      intros Hin. apply (Hdisj n Hin). cbn. left. }
    apply Forall_cons in Hfiles as [Hfile Hfiles].
    cbn [app fmap list_fmap fst sweep]. rewrite statSync_app by done.
    rewrite kept_cons, swept_cons. cbn [fst snd] in *.
    destruct (is_old now e) eqn:Hold'.
    + rewrite unlinkSync_app by done. rewrite (Hfile eq_refl).
      rewrite IH; [by rewrite <- app_assoc | | done..].
      rewrite fmap_app in Hnd |- *. apply NoDup_app in Hnd as (Hb & Hdisj & Hr).
      apply NoDup_app. split; [done|]. split.
      * intros x Hx Hx'. apply (Hdisj x Hx). by right.
      * by apply NoDup_cons in Hr as [_ ?].
    + replace (before ++ (n, e) :: passed ++ (name, entry) :: after)
        with ((before ++ [(n, e)]) ++ passed ++ (name, entry) :: after)
        by (by rewrite <- app_assoc).
      rewrite IH; [by rewrite <- !app_assoc | | done..].
      by rewrite <- app_assoc.
Qed.

Lemma cleanup_passes (now : Q) (d : directory) :
  NoDup (d.*1) →
  old_are_files now d →
  cleanupOldFiles now (Some d)
  = {| remaining := Some (kept now d); deleted := swept now d; caught := None |}.
Proof.
  intros Hnd Hfiles. unfold cleanupOldFiles, readdirSync.
  pose proof (sweep_passes now [] d [] Hnd Hfiles) as H. cbn [app] in H.
  by rewrite H.
Qed.

(** In a directory of distinct names where nothing due for removal is a
    subdirectory, [cleanupOldFiles] removes exactly the entries older than
    one hour, keeps all the others in place and in order, reports the
    removed names, and catches no error.  An entry is due when its age is
    more than [oneHour]: one that is exactly one hour old stays. *)
Theorem cleanup_removes_exactly_the_old (now : Q) (d : directory) :
  NoDup (d.*1) →
  old_are_files now d →
  cleanupOldFiles now (Some d)
  = {| remaining := Some (kept now d); deleted := swept now d; caught := None |}
  ∧ ∀ stats, is_old now stats = true ↔ (oneHour < now - mtimeMs stats)%Q.
Proof.
  intros Hnd Hfiles. split; [by apply cleanup_passes | intros; apply is_old_iff].
Qed.

Lemma cleanup_removes_exactly_the_old_witness :
  NoDup (demo_uploads.*1) ∧
  old_are_files demo_now demo_uploads ∧
  cleanupOldFiles demo_now (Some demo_uploads)
  = {| remaining := Some [(lit "pdf-2.pdf", hour_old_file)];
       deleted := [lit "pdf-1.pdf"]; caught := None |}.
Proof.
  assert (Hnd : NoDup (demo_uploads.*1)).
  { apply (bool_decide_unpack _). vm_compute. reflexivity. }
  assert (Hfiles : old_are_files demo_now demo_uploads).
  { repeat constructor. }
  split; [exact Hnd|]. split; [exact Hfiles|].
  exact (proj1 (cleanup_removes_exactly_the_old demo_now demo_uploads Hnd Hfiles)).
Defined.

(** An old subdirectory stops the sweep: [unlinkSync] refuses it, the
    error leaves the loop and is caught outside of it.  The old files
    listed before the subdirectory are removed; everything listed after it
    stays, old files included. *)
Theorem cleanup_stops_at_old_directory (now : Q) (passed after : directory)
    (name : jstring) (entry : dir_entry) :
  NoDup ((passed ++ (name, entry) :: after).*1) →
  old_are_files now passed →
  is_old now entry = true →
  is_directory entry = true →
  cleanupOldFiles now (Some (passed ++ (name, entry) :: after))
  = {| remaining := Some (kept now passed ++ (name, entry) :: after);
       deleted := swept now passed;
       caught := Some EISDIR |}.
Proof.
  intros Hnd Hfiles Hold Hdir.
  unfold cleanupOldFiles, readdirSync.
  pose proof (sweep_blocked now [] passed after [] name entry Hnd Hfiles Hold Hdir) as H.
  cbn [app] in H. by rewrite H.
Qed.

Lemma cleanup_stops_at_old_directory_witness :
  cleanupOldFiles demo_now (Some demo_uploads_blocked)
  = {| remaining := Some [(lit "tmp", old_directory); (lit "pdf-3.pdf", old_file)];
       deleted := [lit "pdf-1.pdf"];
       caught := Some EISDIR |}.
Proof.
  apply (cleanup_stops_at_old_directory demo_now
           [(lit "pdf-1.pdf", old_file)] [(lit "pdf-3.pdf", old_file)]
           (lit "tmp") old_directory).
  - apply (bool_decide_unpack _). vm_compute. reflexivity.
  - repeat constructor.
  - reflexivity.
  - reflexivity.
Defined.

Lemma kept_none_old (now : Q) (d : directory) :
  swept now (kept now d) = [] ∧ kept now (kept now d) = kept now d.
Proof.
  induction d as [|ne d [IH1 IH2]]; [done|].
  rewrite kept_cons. destruct (is_old now ne.2) eqn:Hold; [done|].
  by rewrite swept_cons, kept_cons, Hold, IH1, IH2.
Qed.

(** A directory either has no old subdirectory, or splits at its first
    one. *)
Lemma first_old_directory (now : Q) (d : directory) :
  old_are_files now d ∨
  ∃ passed name entry after,
    d = passed ++ (name, entry) :: after ∧
    old_are_files now passed ∧
    is_old now entry = true ∧
    is_directory entry = true.
Proof.
  induction d as [|[n e] d IH]; [left; constructor|].
  destruct (is_old now e) eqn:Hold, (is_directory e) eqn:Hdir;
    try (destruct IH as [Hfiles | (passed & name & entry & after & -> & Hfiles & Ho & Hd)];
         [ left; constructor; [cbn; congruence | exact Hfiles]
         | right; exists ((n, e) :: passed), name, entry, after;
           split; [done|]; split; [|done];
           constructor; [cbn; congruence | exact Hfiles] ]).
  right. exists [], n, e, d. split; [done|]. split; [constructor | done].
Qed.

Lemma kept_are_files (now : Q) (d : directory) : old_are_files now (kept now d).
Proof.
  apply Forall_forall. intros ne Hin Hold.
  apply list_elem_of_filter in Hin as [Hnot _]. congruence.
Qed.

(** Running the clean-up again at the same time changes nothing, in any
    directory of distinct names: a second run removes nothing, leaves the
    directory as the first run left it, and ends as the first one did
    (with the same error when an old subdirectory stopped the first). *)
Theorem cleanup_twice_removes_nothing_more (now : Q) (d : directory) :
  NoDup (d.*1) →
  cleanupOldFiles now (remaining (cleanupOldFiles now (Some d)))
  = {| remaining := remaining (cleanupOldFiles now (Some d));
       deleted := [];
       caught := caught (cleanupOldFiles now (Some d)) |}.
Proof.
  intros Hnd.
  destruct (first_old_directory now d)
    as [Hfiles | (passed & name & entry & after & -> & Hfiles & Hold & Hdir)].
  - rewrite (cleanup_passes now d Hnd Hfiles). cbn [remaining caught].
    destruct (kept_none_old now d) as [Hs Hk].
    rewrite cleanup_passes, Hs, Hk; [done | | apply kept_are_files].
    apply (sublist_NoDup _ (d.*1)); [exact Hnd|].
    apply fmap_sublist, sublist_filter.
  - unfold cleanupOldFiles, readdirSync.
    pose proof (sweep_blocked now [] passed after [] name entry Hnd Hfiles Hold Hdir) as H1.
    cbn [app] in H1. rewrite H1. cbn [remaining caught].
    destruct (kept_none_old now passed) as [Hs Hk].
    assert (Hnd' : NoDup (([] ++ kept now passed ++ (name, entry) :: after).*1)).
    { cbn [app]. apply (sublist_NoDup _ ((passed ++ (name, entry) :: after).*1));
        [exact Hnd|].
      apply fmap_sublist, sublist_app; [apply sublist_filter | done]. }
    pose proof (sweep_blocked now [] (kept now passed) after [] name entry Hnd'
                  (kept_are_files now passed) Hold Hdir) as H2.
    cbn [app] in H2. by rewrite H2, Hs, Hk.
Qed.

Lemma cleanup_twice_removes_nothing_more_witness :
  NoDup (demo_uploads_blocked.*1) ∧
  cleanupOldFiles demo_now (remaining (cleanupOldFiles demo_now (Some demo_uploads_blocked)))
  = {| remaining := remaining (cleanupOldFiles demo_now (Some demo_uploads_blocked));
       deleted := [];
       caught := caught (cleanupOldFiles demo_now (Some demo_uploads_blocked)) |}.
Proof.
  assert (Hnd : NoDup (demo_uploads_blocked.*1)).
  { apply (bool_decide_unpack _). vm_compute. reflexivity. }
  split; [exact Hnd|].
  exact (cleanup_twice_removes_nothing_more demo_now demo_uploads_blocked Hnd).
Defined.

Lemma unlink_all_files (d : directory) (count : nat) :
  Forall (λ ne, is_directory ne.2 = false) d →
  unlink_all (d.*1) d count = ([], count + length d, None).
Proof.
  revert count. induction d as [|[n e] d IH]; intros count Hfiles.
  - cbn. by rewrite Nat.add_0_r.
  - apply Forall_cons in Hfiles as [Hfile Hfiles]. cbn in Hfile.
    cbn [fmap list_fmap fst unlink_all unlinkSync].
    rewrite decide_True by done. rewrite Hfile, IH by done.
    cbn [length]. do 2 f_equal. lia.
Qed.

Lemma unlink_all_blocked (files after : directory) (name : jstring)
    (entry : dir_entry) (count : nat) :
  Forall (λ ne, is_directory ne.2 = false) files →
  is_directory entry = true →
  unlink_all ((files ++ (name, entry) :: after).*1) (files ++ (name, entry) :: after) count
  = ((name, entry) :: after, count + length files, Some EISDIR).
Proof.
  revert count. induction files as [|[n e] files IH]; intros count Hfiles Hdir.
  - cbn [app fmap list_fmap fst unlink_all unlinkSync].
    rewrite decide_True by done. rewrite Hdir. cbn. by rewrite Nat.add_0_r.
  - apply Forall_cons in Hfiles as [Hfile Hfiles]. cbn in Hfile.
    cbn [app fmap list_fmap fst unlink_all unlinkSync].
    rewrite decide_True by done. rewrite Hfile, IH by done.
    cbn [length]. do 2 f_equal. lia.
Qed.

(** The manual clean-up of a directory that holds files only removes all
    of them and answers with their number. *)
Theorem cleanup_files_removes_all (d : directory) :
  Forall (λ ne, is_directory ne.2 = false) d →
  cleanup_files (Some d)
  = (Some [],
     [ Json (JObj [ ("message", JStr (lit "Cleanup completed"));
                    ("filesDeleted", JNum (Z.of_nat (length d))) ]) ]).
Proof.
  intros Hfiles. unfold cleanup_files, readdirSync.
  by rewrite (unlink_all_files d 0 Hfiles).
Qed.

Lemma cleanup_files_removes_all_witness :
  cleanup_files (Some demo_uploads)
  = (Some [],
     [ Json (JObj [ ("message", JStr (lit "Cleanup completed"));
                    ("filesDeleted", JNum 2) ]) ]).
Proof.
  apply (cleanup_files_removes_all demo_uploads). repeat constructor.
Defined.

(** When the manual clean-up meets a subdirectory it answers with status
    500 and [Cleanup failed], without a count; the files listed before the
    subdirectory are gone all the same, the rest is still there. *)
Theorem cleanup_files_fails_half_way (files after : directory) (name : jstring)
    (entry : dir_entry) :
  Forall (λ ne, is_directory ne.2 = false) files →
  is_directory entry = true →
  cleanup_files (Some (files ++ (name, entry) :: after))
  = (Some ((name, entry) :: after), cleanup_failed).
Proof.
  intros Hfiles Hdir. unfold cleanup_files, readdirSync.
  by rewrite (unlink_all_blocked files after name entry 0 Hfiles Hdir).
Qed.

Lemma cleanup_files_fails_half_way_witness :
  cleanup_files (Some demo_uploads_blocked)
  = (Some [(lit "tmp", old_directory); (lit "pdf-3.pdf", old_file)], cleanup_failed).
Proof.
  apply (cleanup_files_fails_half_way [(lit "pdf-1.pdf", old_file)]
           [(lit "pdf-3.pdf", old_file)] (lit "tmp") old_directory).
  - repeat constructor.
  - reflexivity.
Defined.

(* ===================================================================== *)
(** ** Uploads *)
(* ===================================================================== *)

(** The error-handling middleware answers with status 400 exactly for a
    multer error with code [LIMIT_FILE_SIZE]; every other error gets
    status 500 with its own message as [error].  So the rejection of the
    file filter, which is a plain [Error] and the only outcome of the
    filter for a type other than [application/pdf], is answered by the
    middleware with status 500 and [Only PDF files are allowed!]. *)
Theorem upload_errors_status (err : request_error) (mimetype : jstring) :
  (status (response_of (error_middleware err)) = 400
     ↔ ∃ msg, err = MulterError (lit "LIMIT_FILE_SIZE") msg) ∧
  (status (response_of (error_middleware err)) = 400 ∨
   error_middleware err
     = [ Status 500; Json (JObj [("error", JStr (request_error_message err))]) ]) ∧
  (mimetype = lit "application/pdf" ∧ fileFilter mimetype = inr true
   ∨ mimetype ≠ lit "application/pdf" ∧
     ∃ e, fileFilter mimetype = inl e ∧
          error_middleware (OtherError e)
            = [ Status 500;
                Json (JObj [("error", JStr (lit "Only PDF files are allowed!"))]) ]).
Proof.
  assert (H500 : 500 ≠ 400) by (intros H; by apply Nat.eqb_eq in H).
  split; [|split].
  - destruct err as [code msg|e]; cbn.
    + destruct (decide (code = lit "LIMIT_FILE_SIZE")) as [->|Hne]; cbn.
      * split; [by eexists | done].
      * split; [done | intros [m [= ? ?]]; done].
    + split; [done | by intros [m ?]].
  - destruct err as [code msg|e]; cbn; [|by right].
    destruct (decide (code = lit "LIMIT_FILE_SIZE")); cbn; [by left | by right].
  - unfold fileFilter. destruct (decide (mimetype = lit "application/pdf")).
    + by left.
    + right. split; [done|]. by eexists.
Qed.

(** When the upload endpoint answers with status 200, the file was there,
    the queue accepted the job, and the job added is [file-ready] with the
    stored file's name, destination and path.  A worker that processes
    that job starts by reading the stored path, and every point it upserts
    has the stored path as its [source]. *)
Theorem upload_job_reaches_worker (E : env) (file : option uploaded_file)
    (add_answer : error + unit) (w : world E) :
  status (response_of (upload_actions (upload_pdf file add_answer))) = 200 →
  ∃ f, file = Some f ∧
       add_answer = inr tt ∧
       enqueued (upload_pdf file add_answer) = Some (lit "file-ready", job_of f) ∧
       let r := exec (worker (job_of f)) w in
       (∃ answer rest, calls r = Call (ReadFile (file_path f)) answer :: rest) ∧
       Forall (λ batch, Forall (λ p, source (point_payload p) = file_path f) batch.2)
              (omap upsert_of (calls r)).
Proof.
  assert (H400 : 400 ≠ 200) by (intros H; by apply Nat.eqb_eq in H).
  assert (H500 : 500 ≠ 200) by (intros H; by apply Nat.eqb_eq in H).
  destruct file as [f|]; [|done].
  destruct add_answer as [e|[]]; [done|]. intros _.
  exists f. split; [done|]. split; [done|]. split; [done|]. cbv zeta. split.
  - unfold worker. cbn. destruct (handle E _ w) as [[e|a] w']; cbn; by do 2 eexists.
  - destruct (worker_upserts E (job_of f) w) as [-> | (chunks & response & -> & _)];
      [constructor|].
    constructor; [|constructor]. cbn. apply Forall_lookup. intros i p Hp.
    by destruct (points_lookup _ _ _ _ _ Hp) as (_ & _ & _ & _ & ?).
Qed.

Lemma upload_job_reaches_worker_witness :
  status (response_of (upload_actions (upload_pdf (Some demo_upload) (inr tt)))) = 200 ∧
  enqueued (upload_pdf (Some demo_upload) (inr tt)) = Some (lit "file-ready", job_a) ∧
  ∃ answer rest,
    calls (@exec demo _ (worker job_a) ∅) = Call (ReadFile (lit "uploads/a.pdf")) answer :: rest.
Proof.
  assert (H : status (response_of (upload_actions (upload_pdf (Some demo_upload) (inr tt))))
              = 200) by reflexivity.
  destruct (upload_job_reaches_worker demo (Some demo_upload) (inr tt) ∅ H)
    as (f & [= <-] & _ & Henq & Hread & _).
  split; [exact H|]. split; [exact Henq | exact Hread].
Defined.

(* ===================================================================== *)
(** ** Instances on the test double *)
(* ===================================================================== *)

Lemma chat_failure_surfaces_cause_witness :
  let b := @exec demo _ (chat (Some demo_query)) ∅ in
  omap call_error (calls b) = [demo_not_found] ∧
  (last (calls b) ≫= call_error) = Some demo_not_found ∧
  actions b = [Status 500; Json (chat_failure_body demo_not_found)].
Proof.
  assert (H : omap call_error (calls (@exec demo _ (chat (Some demo_query)) ∅))
              = [demo_not_found]) by (vm_compute; reflexivity).
  split; [exact H|].
  exact (proj2 (chat_failure_surfaces_cause demo (Some demo_query) ∅ _ _ H)).
Defined.


Lemma stream_always_closed_witness :
  let s := @exec demo _ (chat_stream (Some demo_query)) index_a in
  ¬ blank (Some demo_query) ∧
  result s = Returned tt ∧
  status (response_of (actions s)) = 200 ∧
  ended (response_of (actions s)) = true.
Proof.
  assert (Hq : ¬ blank (Some demo_query)).
  { intros H. apply trim_nil in H. vm_compute in H. discriminate H. }
  destruct (stream_always_closed demo (Some demo_query) index_a Hq)
    as (Hr & Hs & _ & _ & He & _).
  split; [exact Hq|]. split; [exact Hr|]. split; [exact Hs | exact He].
Defined.

Lemma stream_forwards_in_arrival_order_witness :
  let s := @exec demo _ (chat_stream (Some demo_query)) index_a in
  omap stream_answer_of (calls s) = [demo_stream] ∧
  sse (response_of (actions s))
  = (content_event <$> fragments (deltas demo_stream)) ++ [closing_event demo_stream].
Proof.
  assert (H : omap stream_answer_of
                (calls (@exec demo _ (chat_stream (Some demo_query)) index_a))
              = [demo_stream]) by (vm_compute; reflexivity).
  split; [exact H|].
  exact (stream_forwards_in_arrival_order demo (Some demo_query) index_a demo_stream H).
Defined.

Lemma worker_success_report_witness :
  let r := @exec demo _ (worker job_a) ∅ in
  result r = Returned {| success := true; chunks := 1 |} ∧
  ∃ before chunks response,
    {| success := true; chunks := 1 |} = {| success := true; chunks := length chunks |} ∧
    calls r = before ++
      [Call (Upsert collectionName true
               (points job_a chunks (values <$> embeddings response))) (inr tt)] ∧
    omap split_answer_of before = [chunks] ∧
    omap embed_answer_of before = [(chunks, inr response)] ∧
    length (points job_a chunks (values <$> embeddings response))
      = length (embeddings response).
Proof.
  assert (H : result (@exec demo _ (worker job_a) ∅)
              = Returned {| success := true; chunks := 1 |}) by (vm_compute; reflexivity).
  split; [exact H|].
  exact (worker_success_report demo job_a ∅ _ H).
Defined.

Lemma worker_failure_propagated_witness :
  let r := @exec demo _ (worker job_empty) empty_index in
  result r = Thrown (TypeError (lit "Cannot read properties of undefined (reading 'length')")) ∧
  existsb embedding_failed (calls r) = true.
Proof.
  assert (H : result (@exec demo _ (worker job_empty) empty_index)
              = Thrown (TypeError (lit "Cannot read properties of undefined (reading 'length')")))
    by (vm_compute; reflexivity).
  split; [exact H|].
  destruct (worker_failure_propagated demo job_empty empty_index _ H)
    as [[Hlast _] | (_ & Hfailed & _)].
  - vm_compute in Hlast. discriminate Hlast.
  - exact Hfailed.
Defined.

Lemma embeddingModel_returns_what_provider_sent_witness :
  let r := @exec demo _ (embeddingModel (VArr [VStr demo_query])) ∅ in
  result r = Returned [[float_one; float_zero]] ∧
  [[float_one; float_zero]] ≠ [].
Proof.
  assert (H : result (@exec demo _ (embeddingModel (VArr [VStr demo_query])) ∅)
              = Returned [[float_one; float_zero]]) by (vm_compute; reflexivity).
  split; [exact H|].
  exact (proj1 (embeddingModel_returns_what_provider_sent demo _ ∅ _ H)).
Defined.

Lemma chat_previews_bounded_witness :
  let b := @exec demo _ (chat (Some demo_query)) index_a in
  status (response_of (actions b)) = 200 ∧
  Forall (λ entry, ∃ p, preview_of entry = Some p ∧
                        length p ≤ 203 ∧
                        drop (length p - 3) p = lit "...")
         (sources_of (response_of (actions b))).
Proof.
  assert (H : status (response_of (actions
                (@exec demo _ (chat (Some demo_query)) index_a))) = 200)
    by (vm_compute; reflexivity).
  split; [exact H|].
  exact (chat_previews_bounded demo (Some demo_query) index_a H).
Defined.

(* ===================================================================== *)
(** ** Order of the steps *)
(* ===================================================================== *)

(** The two query endpoints retrieve alike: run on the same state of the
    services with the same query, they make the same embedding and search
    calls and get the same answers, and they make the same number of
    calls.  Only the request to the Generation Provider, the third call,
    is the endpoint's own. *)
Theorem endpoints_retrieve_alike (E : env) (query : option jstring) (w : world E) :
  take 2 (calls (exec (chat query) w)) = take 2 (calls (exec (chat_stream query) w)) ∧
  length (calls (exec (chat query) w)) = length (calls (exec (chat_stream query) w)).
Proof.
  unfold chat, chat_stream. destruct query as [[|c q]|]; try done.
  destruct (trim (c :: q)) as [|c' q'] eqn:Htrim; [done|].
  cbn. answer_next; [done|].
  destruct (values <$> embeddings a) as [|vec0 vs]; cbn; [done|].
  answer_next; [done|].
  destruct a0 as [|r0 rs]; cbn; [done|].
  destruct (handle E (ChatCompletionsCreate (chat_request_of _ _)) w1) as [[e|a0] w2];
    destruct (handle E (ChatCompletionsCreate (stream_request_of _ _)) w1) as [[e'|a0'] w2'];
    cbn;
    try (stream_loop; destruct (stream_failure a0'); cbn);
    try (destruct (source_entries_cases 0 (r0 :: rs)) as [(l & -> & _) | ->]; cbn);
    done.
Qed.

